(** * Volatility surface: matrix construction, sorting and IV colouring

    Shallow embedding of
    - [createSurfaceMatrix] (src/types/validation/optionsValidation.ts),
    - the [sortedData] computation and [getIVColor]
      (src/components/VolatilitySurface.tsx).

    JavaScript numbers are modelled as exact rationals [Q] (the API's JSON
    numbers are finite); strings are [String.string] and compared by code
    unit, which for the ASCII date strings of the API is the byte order of
    [String_as_OT.compare]. *)

From Stdlib Require Import List Bool String QArith Permutation Sorted.
From Stdlib Require Import SetoidList SetoidPermutation OrdersEx Lia Lqa.
From Stdlib Require Qcanon.
Import ListNotations.

(** ** JavaScript helpers shared by the two components *)

Definition Qltb (x y : Q) : bool := negb (Qle_bool y x).

(** [Array.prototype.sort] with a comparator whose results have already
    gone through SortCompare (NaN becomes +0).  Since ES2019 the sort is
    stable, and for a consistent comparator the stable sorted order is
    unique, so a stable insertion sort computes it: each element is inserted
    after every element it does not compare below. *)
Fixpoint insertBy {A} (cmp : A -> A -> Q) (x : A) (l : list A) : list A :=
  match l with
  | [] => [x]
  | y :: l' => if Qltb (cmp x y) 0 then x :: l else y :: insertBy cmp x l'
  end.

Definition sortBy {A} (cmp : A -> A -> Q) (l : list A) : list A :=
  fold_left (fun acc x => insertBy cmp x acc) l [].

(** [[...new Set(xs)]]: first occurrences, in insertion order, under the
    SameValueZero equality [eqb]. *)
Fixpoint setAdd {A} (eqb : A -> A -> bool) (acc l : list A) : list A :=
  match l with
  | [] => acc
  | x :: l' => setAdd eqb (if existsb (eqb x) acc then acc else acc ++ [x]) l'
  end.

Definition uniq {A} (eqb : A -> A -> bool) (l : list A) : list A := setAdd eqb [] l.

(** JavaScript truthiness of a number and of a string. *)
Definition truthyNum (q : Q) : bool := negb (Qeq_bool q 0).
Definition truthyStr (s : string) : bool := negb (String.eqb s EmptyString).

(** ** Domain types (src/types/domain/option.ts), the fields the code reads *)

Inductive OptionType := call | put.

Definition OptionType_eqb (a b : OptionType) : bool :=
  match a, b with call, call | put, put => true | _, _ => false end.

Definition OptionType_name (t : OptionType) : string :=
  match t with call => "call" | put => "put" end.

Record OptionDetails := {
  contract_type : OptionType;
  expiration_date : string;
  strike_price : Q
}.

Record UnderlyingAsset := { price : Q }.

Record OptionSnapshot := {
  details : OptionDetails;
  implied_volatility : option Q;
  underlying_asset : UnderlyingAsset
}.

Record SurfaceMatrix := {
  strikes : list Q;
  expirations : list string;
  ivs : list (list Q);
  underlyingPrice : Q
}.

Inductive Either (E A : Type) := Left (e : E) | Right (a : A).
Arguments Left {E A} e.
Arguments Right {E A} a.

(** ** createSurfaceMatrix *)

(** The filter of lines 114-118: type matches, strike and expiry truthy. *)
Definition isValidOption (type : OptionType) (option : OptionSnapshot) : bool :=
  OptionType_eqb (contract_type (details option)) type &&
  truthyNum (strike_price (details option)) &&
  truthyStr (expiration_date (details option)).

Definition validOptions (type : OptionType) (data : list OptionSnapshot)
  : list OptionSnapshot := filter (isValidOption type) data.

(** Comparator [(a, b) => a - b] of the strike sort. *)
Definition strikeCmp (a b : Q) : Q := a - b.

(** SortCompare of [.sort()] without comparator on strings. *)
Definition defaultStringCmp (a b : string) : Q :=
  match String_as_OT.compare a b with Lt => -1 | Eq => 0 | Gt => 1 end.

(** [option.implied_volatility ?? 0] *)
Definition ivOrZero (option : OptionSnapshot) : Q :=
  match implied_volatility option with Some v => v | None => 0 end.

(** [validOptions.find(opt => strike === ... && expiry === ...)] *)
Definition sameCell (strike : Q) (expiry : string) (opt : OptionSnapshot) : bool :=
  Qeq_bool (strike_price (details opt)) strike &&
  String.eqb (expiration_date (details opt)) expiry.

(** [option?.implied_volatility ?? 0] for the cell [(strike, expiry)]. *)
Definition cellIV (valid : list OptionSnapshot) (strike : Q) (expiry : string) : Q :=
  match find (sameCell strike expiry) valid with
  | Some option => ivOrZero option
  | None => 0
  end.

Definition noValidMsg (type : OptionType) : string :=
  ("No valid " ++ OptionType_name type ++ " options found")%string.

Definition noPriceMsg : string := "No valid underlying price found".

Definition createSurfaceMatrix (type : OptionType) (data : list OptionSnapshot)
  : Either string SurfaceMatrix :=
  let validOptions := filter (isValidOption type) data in
  match validOptions with
  | [] => Left (noValidMsg type)
  | _ :: _ =>
    let strikes := sortBy strikeCmp
                     (uniq Qeq_bool (map (fun opt => strike_price (details opt)) validOptions)) in
    let expirations := sortBy defaultStringCmp
                     (uniq String.eqb (map (fun opt => expiration_date (details opt)) validOptions)) in
    let ivs := map (fun strike => map (fun expiry => cellIV validOptions strike expiry)
                                      expirations) strikes in
    let underlyingPrice :=
      option_map (fun opt => price (underlying_asset opt))
                 (find (fun opt => truthyNum (price (underlying_asset opt))) validOptions) in
    match underlyingPrice with
    | Some p => if truthyNum p
                then Right {| strikes := strikes; expirations := expirations;
                              ivs := ivs; underlyingPrice := p |}
                else Left noPriceMsg
    | None => Left noPriceMsg
    end
  end.

(** A snapshot with the fields the builder reads. *)
Definition snapshot (t : OptionType) (strike : Q) (expiry : string)
  (iv : option Q) (px : Q) : OptionSnapshot :=
  {| details := {| contract_type := t; expiration_date := expiry; strike_price := strike |};
     implied_volatility := iv; underlying_asset := {| price := px |} |}.

Definition scenarioA : list OptionSnapshot :=
  [snapshot call 100 "2024-06-21" (Some (30#100)) 100;
   snapshot call 110 "2024-06-21" (Some (25#100)) 100].

(** ** The table sort: [sortedData] (VolatilitySurface.tsx, lines 480-523)

    The memo destructures the current matrix object, builds the two index
    arrays [strikeIndices] and [expirationIndices], sorts one of them in
    place with [Array.prototype.sort], and maps the index arrays back onto
    the matrix.  Since the claims are about which arrays get written, the
    arrays live in an explicit heap and the matrix object holds references. *)

Module JS.
(** The JavaScript values met by [sortedData]. *)
Inductive val := VNum (q : Q) | VNaN | VStr (s : string) | VRef (l : nat) | VUndef.

Definition arr := list val.
Definition heap := list arr.

(** Computations over the heap. *)
Definition St (A : Type) := heap -> A * heap.
Definition ret {A} (a : A) : St A := fun h => (a, h).
Definition bind {A B} (c : St A) (k : A -> St B) : St B :=
  fun h => let (a, h') := c h in k a h'.

Fixpoint mapM {A B} (f : A -> St B) (l : list A) : St (list B) :=
  match l with
  | [] => ret []
  | x :: l' => bind (f x) (fun y => bind (mapM f l') (fun ys => ret (y :: ys)))
  end.

(** A fresh array, e.g. the result of [xs.map(...)]. *)
Definition alloc (a : arr) : St val := fun h => (VRef (length h), h ++ [a]).

(** Contents of the array a reference points to. *)
Definition deref (h : heap) (v : val) : arr :=
  match v with VRef l => nth l h [] | _ => [] end.

Definition load (v : val) : St arr := fun h => (deref h v, h).

Fixpoint replaceAt {A} (l : list A) (i : nat) (x : A) : list A :=
  match l, i with
  | [], _ => []
  | _ :: l', O => x :: l'
  | y :: l', S i' => y :: replaceAt l' i' x
  end.

(** The array index denoted by a number key: a non-negative integer. *)
Definition arrayIndex (k : val) : option nat :=
  match k with
  | VNum q => let r := Qred q in
              if (Z.eqb (Zpos (Qden r)) 1 && Z.leb 0 (Qnum r))%bool
              then Some (Z.to_nat (Qnum r)) else None
  | _ => None
  end.

(** [a[k]]: [undefined] outside the array. *)
Definition member (a : arr) (k : val) : val :=
  match arrayIndex k with Some i => nth i a VUndef | None => VUndef end.

(** [x - y] and [-x]; anything but two numbers gives NaN. *)
Definition sub (x y : val) : val :=
  match x, y with VNum a, VNum b => VNum (a - b) | _, _ => VNaN end.

Definition neg (x : val) : val :=
  match x with VNum a => VNum (- a) | _ => VNaN end.

(** [typeof x === 'number'] *)
Definition isNumber (x : val) : bool :=
  match x with VNum _ | VNaN => true | _ => false end.

(** SortCompare: a NaN comparator result counts as +0. *)
Definition sortCompare (v : val) : Q :=
  match v with VNum q => q | _ => 0 end.

(** [a.sort(cmp)] on the array [a] refers to, in place; the comparator
    reads the heap as it is when the sort runs. *)
Definition sortInPlace (a : val) (cmp : heap -> val -> val -> val) : St unit :=
  fun h => match a with
           | VRef l => (tt, replaceAt h l (sortBy (fun x y => sortCompare (cmp h x y))
                                                  (nth l h [])))
           | _ => (tt, h)
           end.

(** [xs.map((_, i) => i)] *)
Definition indexArray (a : arr) : arr :=
  map (fun i => VNum (Z.of_nat i # 1)) (seq 0 (length a)).
End JS.

Import JS.

Notation "x <- c ;; k" := (bind c (fun x => k))
  (at level 61, c at next level, right associativity).

Inductive SortKey := strikesKey | expirationsKey | ivKey.
Inductive SortDirection := asc | desc.

(** [SortConfig]; an absent [expirationIndex] is [VUndef]. *)
Record SortConfig := {
  key : SortKey;
  direction : SortDirection;
  expirationIndex : val
}.

(** A [SurfaceMatrix] object: references to its arrays, and the price. *)
Record SurfaceObj := {
  objStrikes : val;
  objExpirations : val;
  objIvs : val;
  objUnderlyingPrice : val
}.

(** [sortConfig.direction === 'asc' ? diff : -diff] *)
Definition directed (cfg : SortConfig) (diff : val) : val :=
  match direction cfg with asc => diff | desc => neg diff end.

Section SortedData.
(** [new Date(x).getTime()], a built-in left abstract. *)
Variable dateTime : val -> val.

Definition strikeComparator (m : SurfaceObj) (cfg : SortConfig) (h : heap) (a b : val) : val :=
  let strikes := deref h (objStrikes m) in
  directed cfg (sub (member strikes a) (member strikes b)).

Definition expirationComparator (m : SurfaceObj) (cfg : SortConfig) (h : heap) (a b : val) : val :=
  let expirations := deref h (objExpirations m) in
  directed cfg (sub (dateTime (member expirations a)) (dateTime (member expirations b))).

Definition ivComparator (m : SurfaceObj) (cfg : SortConfig) (h : heap) (a b : val) : val :=
  let ivs := deref h (objIvs m) in
  let k := expirationIndex cfg in
  directed cfg (sub (member (deref h (member ivs a)) k) (member (deref h (member ivs b)) k)).

(** The [if / else if] chain of lines 490-507. *)
Definition sortIndices (m : SurfaceObj) (cfg : SortConfig)
  (strikeIndices expirationIndices : val) : St unit :=
  match key cfg with
  | strikesKey => sortInPlace strikeIndices (strikeComparator m cfg)
  | expirationsKey => sortInPlace expirationIndices (expirationComparator m cfg)
  | ivKey => if isNumber (expirationIndex cfg)
             then sortInPlace strikeIndices (ivComparator m cfg)
             else ret tt
  end.

(** The memo body, for a non-null [surfaceData]. *)
Definition sortedData (m : SurfaceObj) (cfg : SortConfig) : St SurfaceObj :=
  strikes <- load (objStrikes m);;
  expirations <- load (objExpirations m);;
  strikeIndices <- alloc (indexArray strikes);;
  expirationIndices <- alloc (indexArray expirations);;
  _ <- sortIndices m cfg strikeIndices expirationIndices;;
  si <- load strikeIndices;;
  strikes <- load (objStrikes m);;
  sortedStrikes <- alloc (map (member strikes) si);;
  ei <- load expirationIndices;;
  expirations <- load (objExpirations m);;
  sortedExpirations <- alloc (map (member expirations) ei);;
  rows <- mapM (fun i => ivs <- load (objIvs m);;
                         row <- load (member ivs i);;
                         alloc (map (member row) ei)) si;;
  sortedIVs <- alloc rows;;
  ret {| objStrikes := sortedStrikes; objExpirations := sortedExpirations;
         objIvs := sortedIVs; objUnderlyingPrice := objUnderlyingPrice m |}.
End SortedData.

(** The index arrays as [sortIndices] leaves them, read from the heap [h]
    the comparators see; and the arrays the row [.map] allocates. *)
Definition sortedIndexArrays (dateTime : val -> val) (m : SurfaceObj) (cfg : SortConfig)
  (h : heap) (IS IE : arr) : arr * arr :=
  match key cfg with
  | strikesKey => (sortBy (fun x y => sortCompare (strikeComparator m cfg h x y)) IS, IE)
  | expirationsKey =>
      (IS, sortBy (fun x y => sortCompare (expirationComparator dateTime m cfg h x y)) IE)
  | ivKey => if isNumber (expirationIndex cfg)
             then (sortBy (fun x y => sortCompare (ivComparator m cfg h x y)) IS, IE)
             else (IS, IE)
  end.

Definition rowAlloc (m : SurfaceObj) (ei : arr) (h : heap) (i : val) : arr :=
  map (member (deref h (member (deref h (objIvs m)) i))) ei.

Fixpoint allocAll {A} (F : heap -> A -> arr) (h : heap) (l : list A) : list arr :=
  match l with
  | [] => []
  | x :: l' => F h x :: allocAll F (h ++ [F h x]) l'
  end.

(** No reference of the matrix object dangles: the object and its IV rows
    point into the heap (as every object of the running program does). *)
Definition refBelow (n : nat) (v : val) : Prop :=
  match v with VRef l => (l < n)%nat | _ => True end.

Definition Closed (h : heap) (m : SurfaceObj) : Prop :=
  refBelow (length h) (objStrikes m) /\ refBelow (length h) (objExpirations m) /\
  refBelow (length h) (objIvs m) /\ Forall (refBelow (length h)) (deref h (objIvs m)).

(** The object is a [SurfaceMatrix]: besides being closed, [ivs] holds one
    row array per strike and each row one entry per expiration. *)
Definition WellFormed (h : heap) (m : SurfaceObj) : Prop :=
  Closed h m /\
  length (deref h (objIvs m)) = length (deref h (objStrikes m)) /\
  Forall (fun v => exists l, v = VRef l /\
                             length (nth l h []) = length (deref h (objExpirations m)))
         (deref h (objIvs m)).

(** A 3 x 2 surface in the heap: strikes [100, 90, 110], two expirations,
    one IV row per strike. *)
Definition sHeap : heap :=
  [[VNum 100; VNum 90; VNum 110];
   [VStr "2024-06-21"; VStr "2024-03-15"];
   [VRef 3; VRef 4; VRef 5];
   [VNum (30#100); VNum (32#100)];
   [VNum (40#100); VNum (41#100)];
   [VNum (20#100); VNum (25#100)]].

Definition sObj : SurfaceObj :=
  {| objStrikes := VRef 0; objExpirations := VRef 1; objIvs := VRef 2;
     objUnderlyingPrice := VNum 100 |}.

(** A [Date.getTime] stand-in for the concrete runs (the IV and strike sorts
    never call it). *)
Definition noDate (_ : val) : val := VNaN.

(** [new Date(x).getTime()] on the two ISO dates of [sHeap] (UTC
    milliseconds); NaN for anything else. *)
Definition sHeapDate (v : val) : val :=
  match v with
  | VStr s => if String.eqb s "2024-06-21" then VNum 1718928000000
              else if String.eqb s "2024-03-15" then VNum 1710460800000
              else VNaN
  | _ => VNaN
  end.

(** ** getIVColor (VolatilitySurface.tsx, lines 243-250) *)

Definition getIVColor (iv baseIV : Q) : string :=
  let diff := iv - baseIV in
  if Qltb diff (-(5#100)) then "text-blue-600 font-medium"
  else if Qltb diff 0 then "text-blue-400"
  else if Qltb (5#100) diff then "text-red-600 font-medium"
  else if Qltb 0 diff then "text-red-400"
  else "text-gray-600".

(** ** Sort state (VolatilitySurface.tsx): [handleSort], the headers of
    [SurfaceTable] and the highlighting of [SortableHeader] *)

Definition SortKey_eqb (a b : SortKey) : bool :=
  match a, b with
  | strikesKey, strikesKey | expirationsKey, expirationsKey | ivKey, ivKey => true
  | _, _ => false
  end.

Definition SortDirection_eqb (a b : SortDirection) : bool :=
  match a, b with asc, asc | desc, desc => true | _, _ => false end.

(** [===] on the values a sort configuration holds. *)
Definition strictEq (x y : val) : bool :=
  match x, y with
  | VNum a, VNum b => Qeq_bool a b
  | VStr a, VStr b => String.eqb a b
  | VRef a, VRef b => Nat.eqb a b
  | VUndef, VUndef => true
  | _, _ => false
  end.

(** [useState<SortConfig>({ key: 'strikes', direction: 'asc' })], line 437. *)
Definition initialSortConfig : SortConfig :=
  {| key := strikesKey; direction := asc; expirationIndex := VUndef |}.

(** The updater [handleSort(key, expirationIndex)] passes to
    [setSortConfig] (lines 466-476). *)
Definition handleSort (k : SortKey) (idx : val) (prevConfig : SortConfig) : SortConfig :=
  {| key := k;
     expirationIndex := if SortKey_eqb k ivKey then idx else VUndef;
     direction :=
       if SortKey_eqb (key prevConfig) k && strictEq (expirationIndex prevConfig) idx &&
          SortDirection_eqb (direction prevConfig) asc
       then desc else asc |}.

(** [isActive] of [SortableHeader] (lines 295-296). *)
Definition isActive (sortKey : SortKey) (currentSort : SortConfig) (idx : val) : bool :=
  SortKey_eqb (key currentSort) sortKey &&
  (negb (SortKey_eqb sortKey ivKey) || strictEq (expirationIndex currentSort) idx).

(** The headers [SurfaceTable] renders (lines 334-368): the strike header,
    the expirations header and one IV header per expiration [index]. *)
Inductive Header := StrikeHeader | ExpirationsHeader | IvHeader (index : nat).

Definition headerKey (hd : Header) : SortKey :=
  match hd with
  | StrikeHeader => strikesKey | ExpirationsHeader => expirationsKey | IvHeader _ => ivKey
  end.

(** The index a header hands to [onSort] and to [SortableHeader]: none
    ([undefined]) for the first two, the column [index] for an IV header. *)
Definition headerIndex (hd : Header) : val :=
  match hd with IvHeader j => VNum (Z.of_nat j # 1) | _ => VUndef end.

Definition clickHeader (hd : Header) (cfg : SortConfig) : SortConfig :=
  handleSort (headerKey hd) (headerIndex hd) cfg.

Definition headerActive (cfg : SortConfig) (hd : Header) : bool :=
  isActive (headerKey hd) cfg (headerIndex hd).

(** A run of clicks, first click first. *)
Definition clickAll (cfg : SortConfig) (hds : list Header) : SortConfig :=
  fold_left (fun c hd => clickHeader hd c) hds cfg.

(** A header of a table with [n] expiration columns. *)
Definition headerOf (n : nat) (hd : Header) : Prop :=
  match hd with IvHeader j => (j < n)%nat | _ => True end.

(** The order a sorted column is in: numbers, ascending for ['asc'] and
    descending for ['desc']. *)
Definition valLe (x y : val) : Prop := exists a b, x = VNum a /\ y = VNum b /\ a <= b.

Definition dirLe (d : SortDirection) (x y : val) : Prop :=
  match d with asc => valLe x y | desc => valLe y x end.

Definition flipDirection (d : SortDirection) : SortDirection :=
  match d with asc => desc | desc => asc end.

(** ** Cell colours of [SurfaceTable] (lines 373-405) *)

(** [Math.floor(data.strikes.length / 2)] *)
Definition baseIVRow (d : SurfaceMatrix) : nat := Nat.div (length (strikes d)) 2.

(** [data.ivs[baseIVRow]?.[j] ?? 0] *)
Definition baseIV (d : SurfaceMatrix) (j : nat) : Q :=
  match nth_error (ivs d) (baseIVRow d) with
  | Some row => match nth_error row j with Some v => v | None => 0 end
  | None => 0
  end.

(** The colour class of every cell, row [i] for the [i]-th strike, one cell
    per entry of [data.ivs[i]]. *)
Definition cellClasses (d : SurfaceMatrix) : list (list string) :=
  map (fun i => let row := nth i (ivs d) [] in
                map (fun j => getIVColor (nth j row 0) (baseIV d j)) (seq 0 (length row)))
      (seq 0 (length (strikes d))).

(** The five classes of [getIVColor], coldest first. *)
Definition colorRank (c : string) : nat :=
  if String.eqb c "text-blue-600 font-medium" then 0
  else if String.eqb c "text-blue-400" then 1
  else if String.eqb c "text-gray-600" then 2
  else if String.eqb c "text-red-400" then 3
  else 4.

(** ** The first draft of the component (VolatilitySurface.tsx, lines 1-190)

    The file still carries the earlier [VolatilitySurface], which groups the
    raw Polygon records itself ([processOptionsData], lines 49-81) inside the
    fetch handler [fetchOptionsData] (lines 28-47).  Its [grouped] record
    of records is a plain object keyed by expiration string, then by strike.
    An expiration named like a property of [Object.prototype]
    ("constructor", "toString", ...) reads the inherited value and gets no
    own key; ["__proto__"] writes into [Object.prototype] itself, which the
    model leaves out (see [groupStep]). *)
Module OldDraft.

Record PolygonOption := {
  expiration_date : string;
  strike_price : Q;
  implied_volatility : option Q
}.

Record OptionsData := {
  strikes : list Q;
  expirations : list string;
  ivs : list (list Q)
}.

(** The state the handlers set: [loading], [error], [optionsData]. *)
Record UIState := {
  loading : bool;
  error : string;
  optionsData : option OptionsData
}.

(** The names an empty object literal inherits from [Object.prototype]. *)
Definition objectPrototypeKeys : list string :=
  ["__proto__"; "constructor"; "hasOwnProperty"; "isPrototypeOf";
   "propertyIsEnumerable"; "toLocaleString"; "toString"; "valueOf";
   "__defineGetter__"; "__defineSetter__"; "__lookupGetter__"; "__lookupSetter__"]%string.

(** A plain object used as a dictionary: its own properties in creation
    order; [eqb] compares the property keys (a number key [k] is the string
    [String(k)], equal for equal numbers). *)
Fixpoint dictGet {K V} (eqb : K -> K -> bool) (k : K) (d : list (K * V)) : option V :=
  match d with
  | [] => None
  | (k', v) :: d' => if eqb k k' then Some v else dictGet eqb k d'
  end.

Fixpoint dictSet {K V} (eqb : K -> K -> bool) (k : K) (v : V) (d : list (K * V))
  : list (K * V) :=
  match d with
  | [] => [(k, v)]
  | (k', v') :: d' => if eqb k k' then (k', v) :: d' else (k', v') :: dictSet eqb k v d'
  end.

(** [x || 0] on a number that may be [undefined]. *)
Definition orZero (x : option Q) : Q :=
  match x with Some q => if truthyNum q then q else 0 | None => 0 end.

Definition Grouped := list (string * list (Q * Q)).

(** [objectPrototypeKeys] as a test. *)
Definition isProtoKey (k : string) : bool := existsb (String.eqb k) objectPrototypeKeys.

(** Lines 62-63 when [acc[expiry]] is an own property of [acc] or missing:
    [if (!acc[expiry]) acc[expiry] = {}; acc[expiry][strike] = iv;]. *)
Definition ownStep (acc : Grouped) (option : PolygonOption) : Grouped :=
  let expiry := expiration_date option in
  let strike := strike_price option in
  let iv := orZero (implied_volatility option) in
  let acc := match dictGet String.eqb expiry acc with
             | Some _ => acc
             | None => dictSet String.eqb expiry [] acc
             end in
  let inner := match dictGet String.eqb expiry acc with Some r => r | None => [] end in
  dictSet String.eqb expiry (dictSet Qeq_bool strike iv inner) acc.

(** The [reduce] callback (lines 56-64), on an accumulator that starts as
    [{}] and whose prototype is a [Object.prototype] with only its standard
    properties.  When [expiry] is not an own key of [acc] but names one of
    those properties, [acc[expiry]] is the inherited value, which is truthy:
    no own key is created and [acc[expiry][strike] = iv] writes to the
    inherited value.  For every name but ["__proto__"] that value is a
    built-in function, so [acc] is left as it was.  For ["__proto__"] the
    write goes to [Object.prototype] itself and changes what every later
    property read sees; that run is not modelled ([None]). *)
Definition groupStep (acc : Grouped) (opt : PolygonOption) : option Grouped :=
  let expiry := expiration_date opt in
  match dictGet String.eqb expiry acc with
  | Some _ => Some (ownStep acc opt)
  | None =>
      if String.eqb expiry "__proto__" then None
      else if isProtoKey expiry then Some acc
      else Some (ownStep acc opt)
  end.

(** [rawData.reduce(callback, {})] over [groupStep]. *)
Definition reduceStep (acc : option Grouped) (opt : PolygonOption) : option Grouped :=
  match acc with Some a => groupStep a opt | None => None end.

Definition grouped (rawData : list PolygonOption) : option Grouped :=
  fold_left reduceStep rawData (Some []).

(** [Object.keys(grouped).sort()]: the keys are distinct strings, so the
    sorted result does not depend on the order [Object.keys] lists them in. *)
Definition sortedExpirations (g : Grouped) : list string :=
  sortBy defaultStringCmp (map fst g).

(** [grouped[exp][strike]]; [exp] is always an own key of [grouped] where
    the code reads it, and a strike key [String(strike)] is never a property
    of [Object.prototype]. *)
Definition member2 (g : Grouped) (exp : string) (strike : Q) : option Q :=
  match dictGet String.eqb exp g with
  | Some inner => dictGet Qeq_bool strike inner
  | None => None
  end.

(** [grouped[exp][strike] || 0] *)
Definition cell (g : Grouped) (exp : string) (strike : Q) : Q := orZero (member2 g exp strike).

Section Draft.
(** [new Date(exp).toLocaleDateString()], a built-in left abstract. *)
Variable localeDate : string -> string.

(** The table [processOptionsData] passes to [setOptionsData], from the
    records and their grouping. *)
Definition buildOptionsData (rawData : list PolygonOption) (g : Grouped) : OptionsData :=
  let expirations := sortedExpirations g in
  let strikes := sortBy strikeCmp (uniq Qeq_bool (map strike_price rawData)) in
  let ivs := map (fun strike => map (fun exp => cell g exp strike) expirations) strikes in
  {| strikes := strikes; expirations := map localeDate expirations; ivs := ivs |}.

(** [processOptionsData] (lines 49-81); [None] when the grouping left the
    model. *)
Definition processOptionsData (rawData : list PolygonOption) (st : UIState) : option UIState :=
  match rawData with
  | [] => Some {| loading := loading st; error := "No options data available";
                  optionsData := optionsData st |}
  | _ => match grouped rawData with
         | Some g => Some {| loading := loading st; error := error st;
                             optionsData := Some (buildOptionsData rawData g) |}
         | None => None
         end
  end.
End Draft.

(** A response with two records for the same cell, the later one with IV
    0.40, and one record whose expiration is named like a property of
    [Object.prototype]. *)
Definition draftInput : list PolygonOption :=
  [{| expiration_date := "2024-06-21"; strike_price := 100; implied_volatility := Some (30#100) |};
   {| expiration_date := "2024-06-21"; strike_price := 110; implied_volatility := None |};
   {| expiration_date := "2024-06-21"; strike_price := 100; implied_volatility := Some (40#100) |};
   {| expiration_date := "constructor"; strike_price := 120; implied_volatility := Some (50#100) |}].

End OldDraft.

(** Code-unit order on strings, reflexive closure. *)
Definition strLe (a b : string) : Prop := a = b \/ String_as_OT.lt a b.

(** Builder inputs: two expirations whose string and date orders differ. *)
Definition c1Input : list OptionSnapshot :=
  [snapshot call 100 "2024-2-1" (Some (30#100)) 100;
   snapshot call 100 "2024-10-1" (Some (30#100)) 100].

(** The calendar date a ["Y-M-D"] string with decimal fields names, as
    [(year, month, day)]: the date value the spec orders expirations by. *)
Definition digitVal (c : Ascii.ascii) : option nat :=
  let n := Ascii.nat_of_ascii c in
  if Nat.leb 48 n && Nat.leb n 57 then Some (n - 48)%nat else None.

Fixpoint parseNat (s : string) (acc : nat) : option nat :=
  match s with
  | EmptyString => Some acc
  | String c s' => match digitVal c with
                   | Some k => parseNat s' (acc * 10 + k)%nat
                   | None => None
                   end
  end.

Fixpoint splitDash (s : string) : list string :=
  match s with
  | EmptyString => [EmptyString]
  | String c s' =>
      if Nat.eqb (Ascii.nat_of_ascii c) 45 (* "-" *) then EmptyString :: splitDash s'
      else match splitDash s' with
           | [] => [String c EmptyString]
           | f :: fs => String c f :: fs
           end
  end.

Definition calendarDate (s : string) : option (nat * nat * nat) :=
  match splitDash s with
  | [y; m; d] =>
      match parseNat y 0, parseNat m 0, parseNat d 0 with
      | Some y, Some m, Some d => Some (y, m, d)
      | _, _, _ => None
      end
  | _ => None
  end.

(** [a] names a strictly earlier calendar date than [b]. *)
Definition dateBeforeb (a b : string) : bool :=
  match calendarDate a, calendarDate b with
  | Some (y1, m1, d1), Some (y2, m2, d2) =>
      Nat.ltb y1 y2 || (Nat.eqb y1 y2 && (Nat.ltb m1 m2 || (Nat.eqb m1 m2 && Nat.ltb d1 d2)))
  | _, _ => false
  end.

Definition dateBefore (a b : string) : Prop := dateBeforeb a b = true.

(** A negative strike, and an expiry that is no date. *)
Definition c9Input : list OptionSnapshot :=
  [snapshot call (-5) "2024-06-21" (Some (30#100)) 100;
   snapshot call 100 "not-a-date" (Some (25#100)) 100].

(** Two records for the same (strike, expiration) cell. *)
Definition c2Input : list OptionSnapshot :=
  [snapshot call 100 "2024-06-21" (Some (30#100)) 100;
   snapshot call 100 "2024-06-21" (Some (40#100)) 100].

(** ** Runs of the builder on two small inputs *)

Example scenarioA_build :
  createSurfaceMatrix call scenarioA =
  Right {| strikes := [100; 110]; expirations := ["2024-06-21"%string];
           ivs := [[30#100]; [25#100]]; underlyingPrice := 100 |}.
Proof. reflexivity. Qed.

Example scenarioB_build :
  createSurfaceMatrix put scenarioA = Left (noValidMsg put).
Proof. reflexivity. Qed.

(** ** Properties of the sort and of the Set de-duplication *)

Section SortFacts.
Context {A : Type} (cmp : A -> A -> Q).

Lemma insertBy_perm x l : Permutation (insertBy cmp x l) (x :: l).
Proof.
  induction l as [|y l IH]; simpl; [reflexivity|].
  destruct (Qltb (cmp x y) 0); [reflexivity|].
  rewrite IH. apply perm_swap.
Qed.

Lemma fold_insert_perm l acc :
  Permutation (fold_left (fun acc x => insertBy cmp x acc) l acc) (acc ++ l).
Proof.
  revert acc; induction l as [|x l IH]; intros acc; simpl.
  - now rewrite app_nil_r.
  - rewrite IH, insertBy_perm. simpl. apply Permutation_middle.
Qed.

Lemma sortBy_perm l : Permutation (sortBy cmp l) l.
Proof. apply fold_insert_perm. Qed.

Variable le : A -> A -> Prop.
Hypothesis le_before : forall x y, Qltb (cmp x y) 0 = true -> le x y.
Hypothesis le_after : forall x y, Qltb (cmp x y) 0 = false -> le y x.

Lemma insertBy_sorted x l : Sorted le l -> Sorted le (insertBy cmp x l).
Proof.
  induction l as [|y l IH]; intros Hs; simpl; [auto|].
  destruct (Qltb (cmp x y) 0) eqn:E.
  - constructor; [exact Hs | constructor; auto].
  - apply Sorted_inv in Hs as [Hs Hd].
    constructor; [now apply IH|].
    destruct l as [|z l]; simpl.
    + constructor; auto.
    + destruct (Qltb (cmp x z) 0); constructor; auto.
      now inversion Hd.
Qed.

Lemma sortBy_sorted l : Sorted le (sortBy cmp l).
Proof.
  unfold sortBy.
  assert (Hg : forall acc, Sorted le acc ->
            Sorted le (fold_left (fun acc x => insertBy cmp x acc) l acc)).
  { induction l as [|x l IH]; intros acc Hacc; simpl; auto.
    apply IH, insertBy_sorted, Hacc. }
  apply Hg; constructor.
Qed.
End SortFacts.

(** A non-strictly sorted list without duplicates is strictly sorted. *)
Lemma sorted_nodup_strict {A} (eqA le lt : A -> A -> Prop) l :
  (forall x y, le x y -> ~ eqA x y -> lt x y) ->
  Sorted le l -> NoDupA eqA l -> Sorted lt l.
Proof.
  intros Hs; induction l as [|x l IH]; intros Hl Hn; [constructor|].
  apply Sorted_inv in Hl as [Hl Hd]. inversion Hn as [|? ? Hx Hn']; subst.
  constructor; [now apply IH|].
  destruct l as [|y l]; constructor.
  inversion Hd; subst. apply Hs; auto.
Qed.

Section SetFacts.
Context {A : Type} (eqA : A -> A -> Prop) `{Equivalence A eqA}.
Variable eqb : A -> A -> bool.
Hypothesis eqb_spec : forall x y, eqb x y = true <-> eqA x y.

Lemma existsb_InA x acc : existsb (eqb x) acc = true <-> InA eqA x acc.
Proof.
  rewrite existsb_exists, InA_alt. split.
  - intros (y & Hy & E). exists y. split; [apply eqb_spec|]; auto.
  - intros (y & E & Hy). exists y. split; [|apply eqb_spec]; auto.
Qed.

Lemma setAdd_InA acc l y :
  InA eqA y (setAdd eqb acc l) <-> InA eqA y acc \/ InA eqA y l.
Proof.
  revert acc; induction l as [|x l IH]; intros acc; simpl.
  - split; [auto|]. intros [Hy|Hy]; [auto|inversion Hy].
  - rewrite IH. rewrite InA_cons.
    destruct (existsb (eqb x) acc) eqn:E.
    + apply existsb_InA in E. split; [tauto|].
      intros [Hy|[Hy|Hy]]; auto. left. now rewrite Hy.
    + rewrite InA_app_iff, InA_cons, InA_nil. tauto.
Qed.

Lemma setAdd_NoDupA acc l : NoDupA eqA acc -> NoDupA eqA (setAdd eqb acc l).
Proof.
  revert acc; induction l as [|x l IH]; intros acc Hacc; simpl; auto.
  apply IH. destruct (existsb (eqb x) acc) eqn:E; auto.
  apply NoDupA_app; auto.
  - constructor; auto. intros Hx; inversion Hx.
  - intros y Hy1 Hy2. inversion Hy2 as [? ? Ey|? ? Ey]; subst.
    + assert (Hin : InA eqA x acc) by (now rewrite <- Ey).
      apply existsb_InA in Hin. congruence.
    + inversion Ey.
Qed.

Lemma uniq_InA l y : InA eqA y (uniq eqb l) <-> InA eqA y l.
Proof. unfold uniq. rewrite setAdd_InA, InA_nil. tauto. Qed.

Lemma uniq_NoDupA l : NoDupA eqA (uniq eqb l).
Proof. apply setAdd_NoDupA. constructor. Qed.
End SetFacts.

(** ** The orders used by the two sorts of [createSurfaceMatrix] *)

Lemma strikeCmp_before a b : Qltb (strikeCmp a b) 0 = true -> a <= b.
Proof.
  unfold Qltb, strikeCmp. intros H. apply negb_true_iff in H.
  destruct (Qle_bool 0 (a - b)) eqn:E; [discriminate|].
  assert (~ 0 <= a - b) by (intros C; apply Qle_bool_iff in C; congruence). lra.
Qed.

Lemma strikeCmp_after a b : Qltb (strikeCmp a b) 0 = false -> b <= a.
Proof.
  unfold Qltb, strikeCmp. intros H. apply negb_false_iff, Qle_bool_iff in H. lra.
Qed.

Lemma Qle_neq_lt a b : a <= b -> ~ a == b -> a < b.
Proof. intros H1 H2. apply Qle_lteq in H1 as [H1|H1]; tauto. Qed.

Lemma defaultStringCmp_before a b : Qltb (defaultStringCmp a b) 0 = true -> strLe a b.
Proof.
  unfold defaultStringCmp, strLe, String_as_OT.lt.
  destruct (String_as_OT.compare a b); auto; discriminate.
Qed.

Lemma defaultStringCmp_after a b : Qltb (defaultStringCmp a b) 0 = false -> strLe b a.
Proof.
  unfold defaultStringCmp, strLe.
  destruct (String_as_OT.compare_spec a b) as [E|E|E]; auto; discriminate.
Qed.

Lemma strLe_neq_lt a b : strLe a b -> a <> b -> String_as_OT.lt a b.
Proof. intros [H|H] Hn; tauto. Qed.

Lemma Qeq_bool_spec x y : Qeq_bool x y = true <-> x == y.
Proof. apply Qeq_bool_iff. Qed.

Lemma string_eqb_spec x y : String.eqb x y = true <-> x = y.
Proof. apply String.eqb_eq. Qed.

Lemma InA_eq_In {A} (x : A) l : InA eq x l <-> In x l.
Proof.
  rewrite InA_alt. split; [intros (y & <- & H); auto | intros H; now exists x].
Qed.

Lemma NoDupA_eq_NoDup {A} (l : list A) : NoDupA eq l -> NoDup l.
Proof.
  induction l as [|x l IH]; intros H; constructor; inversion H; subst; auto.
  now rewrite <- InA_eq_In.
Qed.

(** Shape of a successful build. *)
Lemma createSurfaceMatrix_Right type data m :
  createSurfaceMatrix type data = Right m ->
  let valid := validOptions type data in
  valid <> [] /\
  strikes m = sortBy strikeCmp
                (uniq Qeq_bool (map (fun opt => strike_price (details opt)) valid)) /\
  expirations m = sortBy defaultStringCmp
                (uniq String.eqb (map (fun opt => expiration_date (details opt)) valid)) /\
  ivs m = map (fun strike => map (fun expiry => cellIV valid strike expiry)
                                 (expirations m)) (strikes m) /\
  exists o, find (fun opt => truthyNum (price (underlying_asset opt))) valid = Some o /\
            underlyingPrice m = price (underlying_asset o).
Proof.
  unfold createSurfaceMatrix, validOptions. cbv zeta.
  destruct (filter (isValidOption type) data) as [|o0 rest] eqn:Ev; [discriminate|].
  rewrite <- Ev.
  destruct (find (fun opt => truthyNum (price (underlying_asset opt)))
                 (filter (isValidOption type) data)) as [o|] eqn:Ef; simpl;
    [|discriminate].
  destruct (truthyNum (price (underlying_asset o))); [|discriminate].
  intros H. injection H as <-. simpl.
  repeat split; try reflexivity.
  - rewrite Ev. discriminate.
  - now exists o.
Qed.

Lemma sortBy_NoDupA {A} (eqA : A -> A -> Prop) `{Equivalence A eqA} cmp l :
  NoDupA eqA l -> NoDupA eqA (sortBy cmp l).
Proof.
  intros Hn.
  assert (HP : PermutationA eqA l (sortBy cmp l)).
  { apply Permutation_PermutationA; [exact _|]. symmetry. apply sortBy_perm. }
  eapply PermutationA_preserves_NoDupA; [exact _|exact HP|exact Hn].
Qed.

Lemma sortBy_InA {A} (eqA : A -> A -> Prop) cmp l x :
  InA eqA x (sortBy cmp l) <-> InA eqA x l.
Proof.
  rewrite !InA_alt. split; intros (y & E & Hy); exists y; split; auto.
  - eapply Permutation_in; [apply sortBy_perm|exact Hy].
  - eapply Permutation_in; [symmetry; apply sortBy_perm|exact Hy].
Qed.

Lemma isValidOption_spec type o :
  isValidOption type o = true <->
  contract_type (details o) = type /\ ~ strike_price (details o) == 0 /\
  expiration_date (details o) <> EmptyString.
Proof.
  unfold isValidOption, truthyNum, truthyStr.
  rewrite !andb_true_iff, !negb_true_iff.
  rewrite <- Qeq_bool_spec, String.eqb_neq.
  destruct (Qeq_bool (strike_price (details o)) 0);
    destruct (contract_type (details o)), type; simpl; intuition congruence.
Qed.

Lemma find_none_forall {A} (f : A -> bool) l :
  find f l = None <-> Forall (fun x => f x = false) l.
Proof.
  induction l as [|x l IH]; simpl; [split; auto|].
  destruct (f x) eqn:E; split; intros H; try discriminate.
  - inversion H; congruence.
  - constructor; auto. now apply IH.
  - inversion H; subst. now apply IH.
Qed.

Lemma InA_nth_Q x l : InA Qeq x l -> exists i, (i < length l)%nat /\ nth i l 0 == x.
Proof.
  induction l as [|y l IH]; intros H; inversion H; subst.
  - exists 0%nat. simpl. split; [lia|]. now symmetry.
  - destruct (IH H1) as (i & Hi & E). exists (S i). simpl. split; [lia|exact E].
Qed.

Lemma find_app_none {A} (f : A -> bool) l1 l2 :
  find f l1 = None -> find f (l1 ++ l2) = find f l2.
Proof. induction l1 as [|x l1 IH]; simpl; auto. destruct (f x); [discriminate|auto]. Qed.

(** ** Matrix construction: claims *)

(** C1 (code_bug): the expirations are ordered by [.sort()] on the raw
    strings, i.e. by code unit, so "2024-10-1" comes before "2024-2-1"
    although February precedes October. *)
Theorem createSurfaceMatrix_expirations_code_unit_order :
  exists m, createSurfaceMatrix call c1Input = Right m /\
            expirations m = ["2024-10-1"; "2024-2-1"]%string.
Proof. eexists; split; reflexivity. Qed.

(** C3 (code_bug): on [c1Input] the builder succeeds, and its expirations
    are not strictly increasing by date value: the second one,
    "2024-2-1", names an earlier date than the first, "2024-10-1". *)
Theorem createSurfaceMatrix_expirations_not_date_increasing :
  exists m, createSurfaceMatrix call c1Input = Right m /\
            ~ Sorted dateBefore (expirations m) /\
            dateBefore (nth 1%nat (expirations m) ""%string) (nth 0%nat (expirations m) ""%string).
Proof.
  eexists. split; [reflexivity|]. split.
  - intros H. inversion H as [|? ? _ Hd]. inversion Hd as [|? ? Hb]. discriminate Hb.
  - reflexivity.
Qed.

(** On success, strikes are strictly increasing (numerically) and
    expirations strictly increasing in the code-unit order used by
    [.sort()], neither has duplicates, [ivs] has one row per strike and
    every row one entry per expiration. *)
Theorem createSurfaceMatrix_shape type data m :
  createSurfaceMatrix type data = Right m ->
  Sorted Qlt (strikes m) /\ NoDupA Qeq (strikes m) /\
  Sorted String_as_OT.lt (expirations m) /\ NoDup (expirations m) /\
  length (ivs m) = length (strikes m) /\
  Forall (fun row => length row = length (expirations m)) (ivs m).
Proof.
  intros H. apply createSurfaceMatrix_Right in H as (_ & Hs & He & Hi & _).
  assert (NS : NoDupA Qeq (strikes m)).
  { rewrite Hs. apply sortBy_NoDupA; [exact _|].
    apply (uniq_NoDupA Qeq), Qeq_bool_spec. }
  assert (NE : NoDupA eq (expirations m)).
  { rewrite He. apply sortBy_NoDupA; [exact _|].
    apply (uniq_NoDupA eq), string_eqb_spec. }
  repeat split; auto.
  - apply (sorted_nodup_strict Qeq Qle); auto using Qle_neq_lt.
    rewrite Hs. apply sortBy_sorted; auto using strikeCmp_before, strikeCmp_after.
  - apply (sorted_nodup_strict eq strLe); auto using strLe_neq_lt.
    rewrite He. apply sortBy_sorted; auto using defaultStringCmp_before, defaultStringCmp_after.
  - now apply NoDupA_eq_NoDup.
  - rewrite Hi. apply length_map.
  - rewrite Hi. apply Forall_forall. intros row Hrow.
    apply in_map_iff in Hrow as (s & <- & _). apply length_map.
Qed.

Lemma createSurfaceMatrix_shape_witness :
  createSurfaceMatrix call scenarioA =
    Right {| strikes := [100; 110]; expirations := ["2024-06-21"%string];
             ivs := [[30#100]; [25#100]]; underlyingPrice := 100 |} /\
  Sorted Qlt [100; 110] /\ NoDupA Qeq [100; 110] /\
  Sorted String_as_OT.lt ["2024-06-21"%string] /\ NoDup ["2024-06-21"%string] /\
  length [[30#100]; [25#100]] = length [100; 110] /\
  Forall (fun row => length row = length ["2024-06-21"%string]) [[30#100]; [25#100]].
Proof.
  split; [reflexivity|].
  exact (createSurfaceMatrix_shape call scenarioA _ eq_refl).
Defined.

(** The three outcomes of the builder. *)
Lemma createSurfaceMatrix_cases type data :
  let valid := validOptions type data in
  (valid = [] /\ createSurfaceMatrix type data = Left (noValidMsg type)) \/
  (valid <> [] /\ Forall (fun o => price (underlying_asset o) == 0) valid /\
   createSurfaceMatrix type data = Left noPriceMsg) \/
  (valid <> [] /\ ~ Forall (fun o => price (underlying_asset o) == 0) valid /\
   exists m, createSurfaceMatrix type data = Right m).
Proof.
  cbv zeta. unfold createSurfaceMatrix, validOptions. cbv zeta.
  destruct (filter (isValidOption type) data) as [|o0 rest] eqn:Ev; [now left|].
  right. rewrite <- Ev.
  assert (Hne : filter (isValidOption type) data <> []) by (rewrite Ev; discriminate).
  destruct (find (fun opt => truthyNum (price (underlying_asset opt)))
                 (filter (isValidOption type) data)) as [o|] eqn:Ef; simpl.
  - apply find_some in Ef as [Hin Ht]. rewrite Ht. right.
    split; [exact Hne|]. split; [|eexists; reflexivity].
    intros Hall. rewrite Forall_forall in Hall. specialize (Hall o Hin).
    unfold truthyNum in Ht. apply Qeq_bool_spec in Hall. rewrite Hall in Ht. discriminate.
  - left. split; [exact Hne|]. split; [|reflexivity].
    apply find_none_forall in Ef. eapply Forall_impl; [|exact Ef].
    intros o Ho. unfold truthyNum in Ho. apply negb_false_iff, Qeq_bool_spec in Ho. exact Ho.
Qed.

Lemma noValidMsg_noPriceMsg type : noValidMsg type <> noPriceMsg.
Proof. destruct type; discriminate. Qed.

(** C4: the builder fails exactly when no record survives the filter
    ([noValidMsg]) or none of the survivors has a non-zero underlying price
    ([noPriceMsg]); the two messages differ, and otherwise a matrix is
    returned. *)
Theorem createSurfaceMatrix_errors type data :
  let valid := validOptions type data in
  let noPrice := Forall (fun o => price (underlying_asset o) == 0) valid in
  (createSurfaceMatrix type data = Left (noValidMsg type) <-> valid = []) /\
  (createSurfaceMatrix type data = Left noPriceMsg <-> valid <> [] /\ noPrice) /\
  ((exists e, createSurfaceMatrix type data = Left e) <-> valid = [] \/ noPrice) /\
  ((exists m, createSurfaceMatrix type data = Right m) <-> ~ (valid = [] \/ noPrice)) /\
  noValidMsg type <> noPriceMsg.
Proof.
  cbv zeta. pose proof (noValidMsg_noPriceMsg type) as Hd.
  destruct (createSurfaceMatrix_cases type data)
    as [(Hv & ->)|[(Hv & Hp & ->)|(Hv & Hp & m & ->)]];
    repeat split; intros;
    repeat match goal with H : exists _, _ |- _ => destruct H end;
    first [ discriminate | congruence | tauto | (eexists; reflexivity) ].
Qed.

Lemma in_validOptions type data o :
  In o (validOptions type data) <->
  In o data /\ contract_type (details o) = type /\ ~ strike_price (details o) == 0 /\
  expiration_date (details o) <> EmptyString.
Proof. unfold validOptions. rewrite filter_In, isValidOption_spec. tauto. Qed.

(** C9 (counterexample): a record with a negative strike and a record whose
    expiry is not a date both pass the filter and reach the matrix. *)
Lemma createSurfaceMatrix_keeps_invalid_records :
  exists m, createSurfaceMatrix call c9Input = Right m /\
            strikes m = [-5; 100] /\
            expirations m = ["2024-06-21"; "not-a-date"]%string.
Proof. eexists; repeat split; reflexivity. Qed.

(** C9 (amended): on success, the strikes (up to numeric equality) and the
    expirations of the matrix are exactly those of the input records whose
    contract type matches, whose strike is non-zero and whose expiry is a
    non-empty string; every IV cell is 0 or the IV of such a record. *)
Theorem createSurfaceMatrix_filter type data m :
  createSurfaceMatrix type data = Right m ->
  (forall s, InA Qeq s (strikes m) <->
     exists o, In o data /\ contract_type (details o) = type /\
               ~ strike_price (details o) == 0 /\
               expiration_date (details o) <> EmptyString /\
               strike_price (details o) == s) /\
  (forall e, In e (expirations m) <->
     exists o, In o data /\ contract_type (details o) = type /\
               ~ strike_price (details o) == 0 /\
               expiration_date (details o) <> EmptyString /\
               expiration_date (details o) = e) /\
  Forall (Forall (fun v => v = 0 \/
     exists o, In o data /\ contract_type (details o) = type /\
               ~ strike_price (details o) == 0 /\
               expiration_date (details o) <> EmptyString /\
               ivOrZero o = v)) (ivs m).
Proof.
  intros H. apply createSurfaceMatrix_Right in H as (_ & Hs & He & Hi & _).
  split; [|split].
  - intros s. rewrite Hs, sortBy_InA, (uniq_InA Qeq _ Qeq_bool_spec), InA_alt.
    split.
    + intros (y & E & Hy). apply in_map_iff in Hy as (o & <- & Ho).
      apply in_validOptions in Ho as (? & ? & ? & ?).
      exists o. repeat split; auto. now symmetry.
    + intros (o & Ho & H1 & H2 & H3 & E). exists (strike_price (details o)).
      split; [now symmetry|].
      apply (in_map (fun opt => strike_price (details opt))).
      now apply in_validOptions.
  - intros e. rewrite He, <- InA_eq_In, sortBy_InA,
      (uniq_InA eq _ string_eqb_spec), InA_eq_In, in_map_iff.
    split.
    + intros (o & <- & Ho). apply in_validOptions in Ho as (? & ? & ? & ?).
      exists o. tauto.
    + intros (o & Ho & H1 & H2 & H3 & <-). exists o. split; auto.
      now apply in_validOptions.
  - rewrite Hi. apply Forall_forall. intros row Hrow.
    apply in_map_iff in Hrow as (s & <- & _).
    apply Forall_forall. intros v Hv. apply in_map_iff in Hv as (x & <- & _).
    unfold cellIV.
    destruct (find (sameCell s x) (validOptions type data)) as [o|] eqn:Ef; [|now left].
    right. apply find_some in Ef as [Ho _].
    apply in_validOptions in Ho as (? & ? & ? & ?). exists o. tauto.
Qed.

Lemma createSurfaceMatrix_filter_witness :
  createSurfaceMatrix call scenarioA =
    Right {| strikes := [100; 110]; expirations := ["2024-06-21"%string];
             ivs := [[30#100]; [25#100]]; underlyingPrice := 100 |} /\
  (InA Qeq 110 [100; 110] <->
     exists o, In o scenarioA /\ contract_type (details o) = call /\
               ~ strike_price (details o) == 0 /\
               expiration_date (details o) <> EmptyString /\
               strike_price (details o) == 110).
Proof.
  split; [reflexivity|].
  exact (proj1 (createSurfaceMatrix_filter call scenarioA _ eq_refl) 110).
Defined.

(** C2 (counterexample): two records for the same cell; the cell holds the
    IV of the first one (0.30), not of the latest one (0.40). *)
Lemma createSurfaceMatrix_duplicate_cell_example :
  exists m, createSurfaceMatrix call c2Input = Right m /\ ivs m = [[30#100]].
Proof. eexists; split; reflexivity. Qed.

(** C2 (amended): the cell of a filtered record [o] holds [o]'s IV (0 when
    [o] has none) as soon as no earlier filtered record has the same strike
    and expiry: the first filtered record of a cell wins, later ones are
    ignored. *)
Theorem createSurfaceMatrix_first_record_wins type pre o post m :
  isValidOption type o = true ->
  (forall o', In o' pre -> isValidOption type o' = true ->
     ~ (strike_price (details o') == strike_price (details o) /\
        expiration_date (details o') = expiration_date (details o))) ->
  createSurfaceMatrix type (pre ++ o :: post) = Right m ->
  exists i j row,
    nth i (strikes m) 0 == strike_price (details o) /\
    nth_error (expirations m) j = Some (expiration_date (details o)) /\
    nth_error (ivs m) i = Some row /\
    nth_error row j = Some (ivOrZero o).
Proof.
  intros Ho Hpre H. apply createSurfaceMatrix_Right in H as (_ & Hs & He & Hi & _).
  set (valid := validOptions type (pre ++ o :: post)) in *.
  assert (Hov : In o valid).
  { unfold valid, validOptions. apply filter_In. split; auto. apply in_elt. }
  assert (HS : InA Qeq (strike_price (details o)) (strikes m)).
  { rewrite Hs, sortBy_InA, (uniq_InA Qeq _ Qeq_bool_spec), InA_alt.
    exists (strike_price (details o)). split; [reflexivity|].
    apply (in_map (fun opt => strike_price (details opt))), Hov. }
  assert (HE : In (expiration_date (details o)) (expirations m)).
  { rewrite He, <- InA_eq_In, sortBy_InA, (uniq_InA eq _ string_eqb_spec), InA_eq_In.
    apply (in_map (fun opt => expiration_date (details opt))), Hov. }
  destruct (InA_nth_Q _ _ HS) as (i & Hil & Eis).
  destruct (In_nth_error _ _ HE) as (j & Ej).
  exists i, j, (map (fun expiry => cellIV valid (nth i (strikes m) 0) expiry) (expirations m)).
  split; [exact Eis|]. split; [exact Ej|]. split.
  - rewrite Hi, nth_error_map, (nth_error_nth' _ 0 Hil). reflexivity.
  - rewrite nth_error_map, Ej. simpl. f_equal.
    unfold cellIV, valid, validOptions.
    rewrite filter_app. simpl. rewrite Ho.
    rewrite find_app_none.
    + simpl. unfold sameCell.
      assert (Qeq_bool (strike_price (details o)) (nth i (strikes m) 0) = true)
        as -> by (apply Qeq_bool_spec; now symmetry).
      rewrite String.eqb_refl. reflexivity.
    + apply find_none_forall, Forall_forall. intros o' Ho'.
      apply filter_In in Ho' as [Hin Hv].
      unfold sameCell.
      destruct (Qeq_bool (strike_price (details o')) (nth i (strikes m) 0)) eqn:E1;
        [|reflexivity].
      destruct (String.eqb (expiration_date (details o')) (expiration_date (details o))) eqn:E2;
        [|reflexivity].
      exfalso. apply (Hpre o' Hin Hv). split.
      * apply Qeq_bool_spec in E1. now rewrite E1.
      * now apply String.eqb_eq.
Qed.

Lemma createSurfaceMatrix_first_record_wins_witness :
  exists i j row,
    nth i [100] 0 == 100 /\
    nth_error ["2024-06-21"%string] j = Some "2024-06-21"%string /\
    nth_error [[30#100]] i = Some row /\
    nth_error row j = Some (30#100).
Proof.
  apply (createSurfaceMatrix_first_record_wins call []
           (snapshot call 100 "2024-06-21" (Some (30#100)) 100)
           [snapshot call 100 "2024-06-21" (Some (40#100)) 100]
           {| strikes := [100]; expirations := ["2024-06-21"%string];
              ivs := [[30#100]]; underlyingPrice := 100 |}).
  - reflexivity.
  - intros o' [].
  - reflexivity.
Defined.

(** ** Heap facts for [sortedData] *)

Lemma replaceAt_length {A} (l : list A) i x : length (replaceAt l i x) = length l.
Proof. revert i; induction l as [|y l IH]; intros [|i]; simpl; auto. Qed.

Lemma nth_replaceAt_same {A} (l : list A) i x d :
  (i < length l)%nat -> nth i (replaceAt l i x) d = x.
Proof.
  revert i; induction l as [|y l IH]; intros [|i] Hi; simpl in *; try lia; auto.
  apply IH. lia.
Qed.

Lemma nth_replaceAt_other {A} (l : list A) i j x d :
  j <> i -> nth j (replaceAt l i x) d = nth j l d.
Proof.
  revert i j; induction l as [|y l IH]; intros [|i] [|j] Hij; simpl; auto; try lia.
Qed.

Lemma replaceAt_nth_self {A} (l : list A) i d : replaceAt l i (nth i l d) = l.
Proof.
  revert i; induction l as [|y l IH]; intros [|i]; simpl; auto.
  now rewrite IH.
Qed.

Lemma replaceAt_other_self {A} (l : list A) a b x d :
  a <> b -> replaceAt (replaceAt l a x) b (nth b l d) = replaceAt l a x.
Proof.
  intros Hab. rewrite <- (nth_replaceAt_other l a b x d) by congruence.
  apply replaceAt_nth_self.
Qed.

Lemma firstn_replaceAt {A} (l : list A) n i x :
  (n <= i)%nat -> firstn n (replaceAt l i x) = firstn n l.
Proof.
  revert n i; induction l as [|y l IH]; intros [|n] [|i] Hni; simpl; auto; try lia.
  f_equal. apply IH. lia.
Qed.

Lemma firstn_app_le {A} (l l' : list A) n :
  (n <= length l)%nat -> firstn n (l ++ l') = firstn n l.
Proof.
  intros H. rewrite firstn_app.
  replace (n - length l)%nat with 0%nat by lia. now rewrite app_nil_r.
Qed.

Lemma nth_firstn_eq {A} (h h0 : list A) n l d :
  firstn n h = h0 -> (l < n)%nat -> nth l h d = nth l h0 d.
Proof. intros <- Hl. now rewrite nth_firstn, (proj2 (PeanoNat.Nat.ltb_lt _ _) Hl). Qed.

Lemma mapM_allocAll {A} (f : A -> St val) (F : heap -> A -> arr) l h :
  (forall x h, f x h = (VRef (length h), h ++ [F h x])) ->
  mapM f l h = (map VRef (seq (length h) (length l)), h ++ allocAll F h l).
Proof.
  intros Hf. revert h; induction l as [|x l IH]; intros h; simpl.
  - unfold ret. now rewrite app_nil_r.
  - unfold bind, ret. rewrite Hf, IH, length_app. simpl.
    rewrite <- app_assoc, PeanoNat.Nat.add_1_r. reflexivity.
Qed.

Lemma sortIndices_eq dt m cfg a b h :
  a <> b ->
  sortIndices dt m cfg (VRef a) (VRef b) h =
  (tt, replaceAt (replaceAt h a (fst (sortedIndexArrays dt m cfg h (nth a h []) (nth b h []))))
                 b (snd (sortedIndexArrays dt m cfg h (nth a h []) (nth b h [])))).
Proof.
  intros Hab. unfold sortIndices, sortedIndexArrays, sortInPlace.
  destruct (key cfg); simpl.
  - now rewrite replaceAt_other_self.
  - now rewrite replaceAt_nth_self.
  - destruct (isNumber (expirationIndex cfg)); simpl.
    + now rewrite replaceAt_other_self.
    + unfold ret. now rewrite !replaceAt_nth_self.
Qed.

Lemma allocAll_length {A} (F : heap -> A -> arr) h l : length (allocAll F h l) = length l.
Proof. revert h; induction l as [|x l IH]; intros h; simpl; auto. Qed.

Lemma nth_app_last {A} (l : list A) x d : nth (length l) (l ++ [x]) d = x.
Proof. rewrite app_nth2 by lia. now rewrite PeanoNat.Nat.sub_diag. Qed.

(** Where [sortedData] puts everything: the two index arrays at [n] and
    [n + 1] (sorted in place), then the new strikes, expirations, rows and
    the new [ivs] array, all above the [n] cells of the initial heap. *)
Lemma sortedData_layout dt m cfg h :
  let n := length h in
  let IS := indexArray (deref h (objStrikes m)) in
  let IE := indexArray (deref h (objExpirations m)) in
  let h2 := (h ++ [IS]) ++ [IE] in
  let SI := fst (sortedIndexArrays dt m cfg h2 IS IE) in
  let EI := snd (sortedIndexArrays dt m cfg h2 IS IE) in
  let h3 := replaceAt (replaceAt h2 n SI) (S n) EI in
  let h4 := h3 ++ [map (member (deref h3 (objStrikes m))) SI] in
  let h5 := h4 ++ [map (member (deref h4 (objExpirations m))) EI] in
  sortedData dt m cfg h =
    ({| objStrikes := VRef (n + 2); objExpirations := VRef (n + 3);
        objIvs := VRef (n + 4 + length SI);
        objUnderlyingPrice := objUnderlyingPrice m |},
     (h5 ++ allocAll (rowAlloc m EI) h5 SI) ++ [map VRef (seq (n + 4) (length SI))]).
Proof.
  intros n IS IE h2 SI EI h3 h4 h5.
  assert (L2 : length h2 = (n + 2)%nat) by (unfold h2; rewrite !length_app; simpl; lia).
  assert (N2a : nth n h2 [] = IS).
  { unfold h2. rewrite app_nth1 by (rewrite length_app; simpl; lia). apply nth_app_last. }
  assert (N2b : nth (S n) h2 [] = IE).
  { unfold h2. replace (S n) with (length (h ++ [IS])) by (rewrite length_app; simpl; lia).
    apply nth_app_last. }
  assert (L3 : length h3 = (n + 2)%nat) by (unfold h3; now rewrite !replaceAt_length).
  assert (N3a : nth n h3 [] = SI).
  { unfold h3. rewrite nth_replaceAt_other by lia. apply nth_replaceAt_same. lia. }
  assert (N3b : nth (S n) h3 [] = EI).
  { unfold h3. apply nth_replaceAt_same. rewrite replaceAt_length. lia. }
  assert (N4b : nth (S n) h4 [] = EI).
  { unfold h4. rewrite app_nth1 by lia. exact N3b. }
  assert (L5 : length h5 = (n + 4)%nat).
  { unfold h5, h4. rewrite !length_app, L3. simpl. lia. }
  unfold sortedData, bind, load, alloc.
  fold n. fold IS. fold IE. fold h2.
  replace (length (h ++ [IS])) with (S n) by (rewrite length_app; simpl; lia).
  rewrite sortIndices_eq by lia. rewrite N2a, N2b. fold SI EI. fold h3.
  cbv beta iota. simpl deref. rewrite N3a.
  change (h3 ++ [map (member (deref h3 (objStrikes m))) SI]) with h4.
  rewrite N4b.
  change (h4 ++ [map (member (deref h4 (objExpirations m))) EI]) with h5.
  rewrite (mapM_allocAll _ (rowAlloc m EI)) by reflexivity.
  assert (L4 : length h4 = (n + 3)%nat) by (unfold h4; rewrite length_app, L3; simpl; lia).
  unfold ret. rewrite length_app, allocAll_length, L5, L4, L3. reflexivity.
Qed.

Lemma nth_app_last_eq {A} (l : list A) x k d :
  k = length l -> nth k (l ++ [x]) d = x.
Proof. intros ->. apply nth_app_last. Qed.

Lemma deref_frame h h' v :
  firstn (length h) h' = h ->
  (match v with VRef l => (l < length h)%nat | _ => True end) ->
  deref h' v = deref h v.
Proof.
  intros Hf Hv. destruct v; simpl; auto. now apply (nth_firstn_eq h' h (length h)).
Qed.

(** The cells of the initial heap survive [sortedData]. *)
Lemma sortedData_firstn dt m cfg h :
  firstn (length h) (snd (sortedData dt m cfg h)) = h.
Proof.
  rewrite sortedData_layout. simpl snd.
  set (n := length h).
  set (IS := indexArray (deref h (objStrikes m))).
  set (IE := indexArray (deref h (objExpirations m))).
  set (h2 := (h ++ [IS]) ++ [IE]).
  assert (F2 : firstn n h2 = h).
  { unfold h2. rewrite !firstn_app_le by (rewrite ?length_app; simpl; lia).
    apply firstn_all. }
  set (SI := fst (sortedIndexArrays dt m cfg h2 IS IE)).
  set (EI := snd (sortedIndexArrays dt m cfg h2 IS IE)).
  set (h3 := replaceAt (replaceAt h2 n SI) (S n) EI).
  assert (L3 : length h3 = (n + 2)%nat).
  { unfold h3, h2. rewrite !replaceAt_length, !length_app. simpl. lia. }
  assert (F3 : firstn n h3 = h).
  { unfold h3. rewrite !firstn_replaceAt by lia. exact F2. }
  rewrite !firstn_app_le; rewrite ?length_app; simpl; try lia.
  exact F3.
Qed.

(** C7: [sortedData] writes no array of the initial heap (it only sorts the
    index arrays it allocated itself), so the input matrix's strikes,
    expirations and IV rows read the same afterwards; the returned matrix
    refers to freshly allocated arrays only (rows included) and carries the
    input's [underlyingPrice]. *)
Theorem sortedData_no_mutation dt m cfg h :
  let (out, h') := sortedData dt m cfg h in
  firstn (length h) h' = h /\
  (forall v, (match v with VRef l => (l < length h)%nat | _ => True end) ->
             deref h' v = deref h v) /\
  objUnderlyingPrice out = objUnderlyingPrice m /\
  (exists ls le li, objStrikes out = VRef ls /\ objExpirations out = VRef le /\
                    objIvs out = VRef li /\
                    (length h <= ls)%nat /\ (length h <= le)%nat /\ (length h <= li)%nat) /\
  Forall (fun v => exists l, v = VRef l /\ (length h <= l)%nat) (deref h' (objIvs out)).
Proof.
  pose proof (sortedData_firstn dt m cfg h) as Hf.
  pose proof (sortedData_layout dt m cfg h) as HL. cbv zeta in HL.
  destruct (sortedData dt m cfg h) as [out h'] eqn:E. simpl in Hf.
  injection HL as Hout Hh. subst out h'.
  split; [exact Hf|]. split; [intros v Hv; now apply deref_frame|].
  split; [reflexivity|]. split.
  - do 3 eexists. repeat split; lia.
  - simpl deref. rewrite nth_app_last_eq
      by (rewrite !length_app, allocAll_length, !replaceAt_length, !length_app; simpl; lia).
    apply Forall_map, Forall_forall. intros l Hl. apply in_seq in Hl.
    exists l. split; [reflexivity|lia].
Qed.

Lemma member_cases a k : member a k = VUndef \/ In (member a k) a.
Proof.
  unfold member. destruct (arrayIndex k) as [i|]; [|now left].
  destruct (nth_in_or_default i a VUndef); auto.
Qed.

Lemma insertBy_ext {A} (c1 c2 : A -> A -> Q) x l :
  (forall a b, c1 a b = c2 a b) -> insertBy c1 x l = insertBy c2 x l.
Proof. intros Hc. induction l as [|y l IH]; simpl; auto. now rewrite Hc, IH. Qed.

Lemma sortBy_ext {A} (c1 c2 : A -> A -> Q) l :
  (forall a b, c1 a b = c2 a b) -> sortBy c1 l = sortBy c2 l.
Proof.
  intros Hc. unfold sortBy. generalize (@nil A).
  induction l as [|x l IH]; intros acc; simpl; auto.
  rewrite (insertBy_ext c1 c2) by exact Hc. apply IH.
Qed.

Section ClosedHeap.
Variables (h : heap) (m : SurfaceObj).
Hypothesis Hc : Closed h m.

Lemma closed_deref_member h' i :
  firstn (length h) h' = h ->
  deref h' (member (deref h' (objIvs m)) i) = deref h (member (deref h (objIvs m)) i).
Proof.
  destruct Hc as (_ & _ & Hi & Hrows). intros Hf.
  rewrite (deref_frame h h' (objIvs m)) by auto.
  apply deref_frame; auto.
  destruct (member_cases (deref h (objIvs m)) i) as [->|Hin]; simpl; auto.
  rewrite Forall_forall in Hrows. now apply Hrows.
Qed.

Lemma sortedIndexArrays_frame dt cfg h' IS IE :
  firstn (length h) h' = h ->
  sortedIndexArrays dt m cfg h' IS IE = sortedIndexArrays dt m cfg h IS IE.
Proof.
  destruct Hc as (Hs & He & _ & _). intros Hf.
  unfold sortedIndexArrays.
  destruct (key cfg); [| |destruct (isNumber (expirationIndex cfg))]; try reflexivity.
  - erewrite sortBy_ext; [reflexivity|]. intros a b. simpl.
    unfold strikeComparator. rewrite (deref_frame h h' (objStrikes m)) by assumption.
    reflexivity.
  - erewrite sortBy_ext; [reflexivity|]. intros a b. simpl.
    unfold expirationComparator.
    rewrite (deref_frame h h' (objExpirations m)) by assumption. reflexivity.
  - erewrite sortBy_ext; [reflexivity|]. intros a b. simpl.
    unfold ivComparator.
    rewrite (closed_deref_member h' a), (closed_deref_member h' b) by assumption.
    reflexivity.
Qed.

Lemma rowAlloc_frame ei h' i :
  firstn (length h) h' = h -> rowAlloc m ei h' i = rowAlloc m ei h i.
Proof. intros Hf. unfold rowAlloc. now rewrite closed_deref_member. Qed.
End ClosedHeap.

Lemma allocAll_frame {A} (F : heap -> A -> arr) h0 h1 l :
  (forall h' x, firstn (length h0) h' = h0 -> F h' x = F h0 x) ->
  firstn (length h0) h1 = h0 -> (length h0 <= length h1)%nat ->
  allocAll F h1 l = map (F h0) l.
Proof.
  intros HF. revert h1; induction l as [|x l IH]; intros h1 Hf Hl; simpl; auto.
  rewrite HF by auto. f_equal. apply IH.
  - rewrite firstn_app_le by auto. exact Hf.
  - rewrite length_app. lia.
Qed.

Lemma map_nth_segment {A} (pre l post : list A) d :
  map (fun k => nth k (pre ++ l ++ post) d) (seq (length pre) (length l)) = l.
Proof.
  revert pre; induction l as [|x l IH]; intros pre; simpl; auto.
  rewrite app_nth2 by lia. rewrite PeanoNat.Nat.sub_diag. simpl. f_equal.
  specialize (IH (pre ++ [x])). rewrite <- app_assoc in IH. simpl in IH.
  rewrite length_app in IH. simpl in IH. rewrite PeanoNat.Nat.add_1_r in IH. exact IH.
Qed.

(** What [sortedData] returns, read back from the heap: the strikes and
    expirations picked through the sorted index arrays, and one fresh row per
    strike index, picked through the expiration index array. *)
Lemma sortedData_contents dt m cfg h :
  Closed h m ->
  let S := deref h (objStrikes m) in
  let E := deref h (objExpirations m) in
  let I := deref h (objIvs m) in
  let SI := fst (sortedIndexArrays dt m cfg h (indexArray S) (indexArray E)) in
  let EI := snd (sortedIndexArrays dt m cfg h (indexArray S) (indexArray E)) in
  let (out, h') := sortedData dt m cfg h in
  deref h' (objStrikes out) = map (member S) SI /\
  deref h' (objExpirations out) = map (member E) EI /\
  map (deref h') (deref h' (objIvs out)) =
    map (fun i => map (member (deref h (member I i))) EI) SI.
Proof.
  intros Hc. cbv zeta.
  pose proof (sortedData_layout dt m cfg h) as HL. cbv zeta in HL.
  destruct (sortedData dt m cfg h) as [out h'] eqn:Eq.
  injection HL as Hout Hh. subst out h'.
  set (n := length h).
  set (S := deref h (objStrikes m)).
  set (E := deref h (objExpirations m)).
  set (I := deref h (objIvs m)).
  set (h2 := (h ++ [indexArray S]) ++ [indexArray E]).
  assert (F2 : firstn n h2 = h).
  { unfold h2. rewrite !firstn_app_le by (rewrite ?length_app; simpl; lia).
    apply firstn_all. }
  rewrite (sortedIndexArrays_frame h m Hc dt cfg h2 _ _ F2).
  set (SI := fst (sortedIndexArrays dt m cfg h (indexArray S) (indexArray E))).
  set (EI := snd (sortedIndexArrays dt m cfg h (indexArray S) (indexArray E))).
  set (h3 := replaceAt (replaceAt h2 n SI) (Datatypes.S n) EI).
  assert (L3 : length h3 = (n + 2)%nat).
  { unfold h3, h2. rewrite !replaceAt_length, !length_app. simpl. lia. }
  assert (F3 : firstn n h3 = h).
  { unfold h3. rewrite !firstn_replaceAt by lia. exact F2. }
  rewrite (deref_frame h h3 (objStrikes m)) by (apply Hc || exact F3). fold S.
  set (h4 := h3 ++ [map (member S) SI]).
  assert (F4 : firstn n h4 = h).
  { unfold h4. rewrite firstn_app_le by lia. exact F3. }
  rewrite (deref_frame h h4 (objExpirations m)) by (apply Hc || exact F4). fold E.
  set (h5 := h4 ++ [map (member E) EI]).
  assert (L5 : length h5 = (n + 4)%nat).
  { unfold h5, h4. rewrite !length_app, L3. simpl. lia. }
  assert (F5 : firstn n h5 = h).
  { unfold h5. rewrite firstn_app_le by (unfold h4; rewrite length_app; lia). exact F4. }
  set (rows := allocAll (rowAlloc m EI) h5 SI).
  assert (LR : length rows = length SI) by apply allocAll_length.
  split; [|split].
  - simpl deref.
    rewrite app_nth1 by (rewrite !length_app; lia).
    rewrite app_nth1 by lia.
    unfold h5. rewrite app_nth1 by (unfold h4; rewrite length_app; simpl; lia).
    unfold h4. apply nth_app_last_eq. lia.
  - simpl deref.
    rewrite app_nth1 by (rewrite !length_app; lia).
    rewrite app_nth1 by lia.
    unfold h5. apply nth_app_last_eq. unfold h4. rewrite length_app. simpl. lia.
  - simpl deref.
    rewrite nth_app_last_eq by (rewrite length_app; lia).
    rewrite map_map. simpl.
    replace (n + 4)%nat with (length h5) by exact L5.
    rewrite <- LR, <- app_assoc, map_nth_segment.
    unfold rows. rewrite (allocAll_frame (rowAlloc m EI) h h5).
    + reflexivity.
    + intros h' x Hf. now apply rowAlloc_frame.
    + exact F5.
    + rewrite L5. unfold n. lia.
Qed.

Lemma arrayIndex_nat i : arrayIndex (VNum (Z.of_nat i # 1)) = Some i.
Proof.
  unfold arrayIndex. rewrite Qcanon.Qred_identity by (simpl; apply Z.gcd_1_r).
  simpl. rewrite (proj2 (Z.leb_le 0 (Z.of_nat i))) by lia. simpl.
  now rewrite Znat.Nat2Z.id.
Qed.

Lemma member_index a i : member a (VNum (Z.of_nat i # 1)) = nth i a VUndef.
Proof. unfold member. now rewrite arrayIndex_nat. Qed.

Lemma sortedIndexArrays_perm dt m cfg h IS IE :
  Permutation IS (fst (sortedIndexArrays dt m cfg h IS IE)) /\
  Permutation IE (snd (sortedIndexArrays dt m cfg h IS IE)).
Proof.
  unfold sortedIndexArrays.
  destruct (key cfg); [| |destruct (isNumber (expirationIndex cfg))]; simpl;
    split; try reflexivity; symmetry; apply sortBy_perm.
Qed.

Lemma indexArray_perm a l :
  Permutation (indexArray a) l ->
  exists p, Permutation p (seq 0 (length a)) /\ l = map (fun i => VNum (Z.of_nat i # 1)) p.
Proof.
  intros HP. symmetry in HP. destruct (Permutation_map_inv _ _ HP) as (p & -> & Hp).
  exists p. split; [symmetry; exact Hp | reflexivity].
Qed.

Lemma map_nth_seq_self {A} (l : list A) d :
  map (fun i => nth i l d) (seq 0 (length l)) = l.
Proof.
  induction l as [|x l IH]; simpl; auto. f_equal.
  rewrite <- seq_shift, map_map. exact IH.
Qed.

Lemma map_member_indexArray a : map (member a) (indexArray a) = a.
Proof.
  unfold indexArray. rewrite map_map.
  rewrite (map_ext _ (fun i => nth i a VUndef)) by apply member_index.
  apply map_nth_seq_self.
Qed.

(** When the index arrays come out of the sort as they went in, [sortedData]
    returns a copy of its input, cell for cell. *)
Lemma sortedData_identity dt m cfg h :
  WellFormed h m ->
  let S := deref h (objStrikes m) in
  let E := deref h (objExpirations m) in
  sortedIndexArrays dt m cfg h (indexArray S) (indexArray E) = (indexArray S, indexArray E) ->
  let (out, h') := sortedData dt m cfg h in
  deref h' (objStrikes out) = S /\
  deref h' (objExpirations out) = E /\
  map (deref h') (deref h' (objIvs out)) = map (deref h) (deref h (objIvs m)).
Proof.
  intros (Hc & HL & Hrows). cbv zeta. intros Hid.
  pose proof (sortedData_contents dt m cfg h Hc) as H. cbv zeta in H.
  rewrite Hid in H. simpl fst in H. simpl snd in H.
  revert H. destruct (sortedData dt m cfg h) as [out h'].
  intros (H1 & H2 & H3). rewrite H1, H2, H3, !map_member_indexArray.
  split; [reflexivity|]. split; [reflexivity|].
  unfold indexArray at 2. rewrite map_map. rewrite <- HL.
  rewrite (map_ext _ (fun i => map (member (deref h (nth i (deref h (objIvs m)) VUndef)))
                                   (indexArray (deref h (objExpirations m)))))
    by (intros i; now rewrite member_index).
  rewrite <- (map_map (fun i => nth i (deref h (objIvs m)) VUndef)
                      (fun v => map (member (deref h v)) (indexArray (deref h (objExpirations m))))).
  rewrite map_nth_seq_self. apply map_ext_in. intros v Hv.
  rewrite Forall_forall in Hrows. destruct (Hrows v Hv) as (l & -> & Hl).
  simpl deref. unfold indexArray. rewrite <- Hl.
  exact (map_member_indexArray (nth l h [])).
Qed.

Lemma sHeap_wellformed : WellFormed sHeap sObj.
Proof.
  unfold WellFormed, Closed, refBelow. simpl.
  split; [repeat split; repeat constructor; lia|]. split; [reflexivity|].
  repeat constructor; eexists; split; reflexivity.
Qed.

(** C5: whatever the configuration, [sortedData] picks strikes, expirations
    and cells through a permutation [p] of the strike indices and [q] of the
    expiration indices: [newIvs[i][j] = oldIvs[p[i]][q[j]]], so every
    (strike, expiration) pair keeps its IV value. *)
Theorem sortedData_permutes_cells dt m cfg h :
  WellFormed h m ->
  let S := deref h (objStrikes m) in
  let E := deref h (objExpirations m) in
  let C := map (deref h) (deref h (objIvs m)) in
  let (out, h') := sortedData dt m cfg h in
  exists p q : list nat,
    Permutation p (seq 0 (length S)) /\ Permutation q (seq 0 (length E)) /\
    deref h' (objStrikes out) = map (fun i => nth i S VUndef) p /\
    deref h' (objExpirations out) = map (fun j => nth j E VUndef) q /\
    map (deref h') (deref h' (objIvs out)) =
      map (fun i => map (fun j => nth j (nth i C []) VUndef) q) p.
Proof.
  intros [Hc _]. cbv zeta.
  pose proof (sortedData_contents dt m cfg h Hc) as H. cbv zeta in H.
  destruct (sortedIndexArrays_perm dt m cfg h (indexArray (deref h (objStrikes m)))
              (indexArray (deref h (objExpirations m)))) as [P1 P2].
  destruct (indexArray_perm _ _ P1) as (p & Hp & Ep).
  destruct (indexArray_perm _ _ P2) as (q & Hq & Eq).
  revert H. destruct (sortedData dt m cfg h) as [out h'].
  intros (H1 & H2 & H3).
  exists p, q. split; [exact Hp|]. split; [exact Hq|].
  rewrite H1, H2, H3, Ep, Eq, !map_map.
  split; [|split].
  - apply map_ext. intros i. apply member_index.
  - apply map_ext. intros j. apply member_index.
  - apply map_ext. intros i. rewrite map_map. apply map_ext. intros j.
    rewrite !member_index.
    rewrite <- (map_nth (deref h) (deref h (objIvs m)) VUndef i). reflexivity.
Qed.

Lemma sortedData_permutes_cells_witness :
  WellFormed sHeap sObj /\
  (let cfg := {| key := strikesKey; direction := desc; expirationIndex := VUndef |} in
   let S := deref sHeap (objStrikes sObj) in
   let E := deref sHeap (objExpirations sObj) in
   let C := map (deref sHeap) (deref sHeap (objIvs sObj)) in
   let (out, h') := sortedData noDate sObj cfg sHeap in
   exists p q : list nat,
     Permutation p (seq 0 (length S)) /\ Permutation q (seq 0 (length E)) /\
     deref h' (objStrikes out) = map (fun i => nth i S VUndef) p /\
     deref h' (objExpirations out) = map (fun j => nth j E VUndef) q /\
     map (deref h') (deref h' (objIvs out)) =
       map (fun i => map (fun j => nth j (nth i C []) VUndef) q) p).
Proof.
  pose proof sHeap_wellformed as W.
  split; [exact W|]. apply (sortedData_permutes_cells noDate sObj _ sHeap W).
Defined.

(** C10: key ['iv'] with an [expirationIndex] that is not a number (e.g.
    [undefined]) sorts nothing: the output has the input's strikes,
    expirations and IV grid, in the same order. *)
Theorem sortedData_iv_without_index dt m cfg h :
  WellFormed h m -> key cfg = ivKey -> isNumber (expirationIndex cfg) = false ->
  let (out, h') := sortedData dt m cfg h in
  deref h' (objStrikes out) = deref h (objStrikes m) /\
  deref h' (objExpirations out) = deref h (objExpirations m) /\
  map (deref h') (deref h' (objIvs out)) = map (deref h) (deref h (objIvs m)).
Proof.
  intros W Hk Hn. apply (sortedData_identity dt m cfg h W).
  unfold sortedIndexArrays. now rewrite Hk, Hn.
Qed.

Lemma sortedData_iv_without_index_witness :
  WellFormed sHeap sObj /\ key (Build_SortConfig ivKey asc VUndef) = ivKey /\
  isNumber (expirationIndex (Build_SortConfig ivKey asc VUndef)) = false /\
  (let (out, h') := sortedData noDate sObj (Build_SortConfig ivKey asc VUndef) sHeap in
   deref h' (objStrikes out) = deref sHeap (objStrikes sObj) /\
   deref h' (objExpirations out) = deref sHeap (objExpirations sObj) /\
   map (deref h') (deref h' (objIvs out)) = map (deref sHeap) (deref sHeap (objIvs sObj))).
Proof.
  pose proof sHeap_wellformed as W.
  split; [exact W|]. split; [reflexivity|]. split; [reflexivity|].
  apply (sortedData_iv_without_index noDate sObj _ sHeap W); reflexivity.
Defined.

Lemma insertBy_no_less {A} (cmp : A -> A -> Q) x l :
  (forall a b, Qltb (cmp a b) 0 = false) -> insertBy cmp x l = l ++ [x].
Proof.
  intros Hc. induction l as [|y l IH]; simpl; auto. now rewrite Hc, IH.
Qed.

(** A comparator that never answers "less" leaves the array as it is. *)
Lemma sortBy_no_less {A} (cmp : A -> A -> Q) l :
  (forall a b, Qltb (cmp a b) 0 = false) -> sortBy cmp l = l.
Proof.
  intros Hc. unfold sortBy.
  assert (G : forall acc, fold_left (fun acc x => insertBy cmp x acc) l acc = acc ++ l).
  { induction l as [|x l IH]; intros acc; simpl.
    - now rewrite app_nil_r.
    - rewrite insertBy_no_less by exact Hc. rewrite IH, <- app_assoc. reflexivity. }
  apply G.
Qed.

(** An out-of-range column (negative, fractional, or at least
    [expirations.length]) makes every IV read [undefined]. *)
Lemma wellformed_member_out_of_range h m k a :
  WellFormed h m ->
  (forall i, arrayIndex k = Some i -> (length (deref h (objExpirations m)) <= i)%nat) ->
  member (deref h (member (deref h (objIvs m)) a)) k = VUndef.
Proof.
  intros (_ & _ & Hrows) Hk.
  destruct (member_cases (deref h (objIvs m)) a) as [->|Hin].
  - simpl. unfold member. destruct (arrayIndex k); [destruct n|]; reflexivity.
  - rewrite Forall_forall in Hrows. destruct (Hrows _ Hin) as (l & -> & Hl).
    simpl deref. unfold member. destruct (arrayIndex k) as [i|] eqn:Ei; [|reflexivity].
    apply nth_overflow. rewrite Hl. now apply Hk.
Qed.

(** C8 (counterexample): [sortedData] has no error result; a column index
    past the last expiration (5) or negative (-1) is not rejected, and the
    matrix comes back in its input order. *)
Lemma sortedData_out_of_range_column_example :
  (let (out, h') := sortedData noDate sObj (Build_SortConfig ivKey asc (VNum 5)) sHeap in
   deref h' (objStrikes out) = [VNum 100; VNum 90; VNum 110] /\
   map (deref h') (deref h' (objIvs out)) =
     [[VNum (30#100); VNum (32#100)]; [VNum (40#100); VNum (41#100)];
      [VNum (20#100); VNum (25#100)]]) /\
  (let (out, h') := sortedData noDate sObj (Build_SortConfig ivKey desc (VNum (-1))) sHeap in
   deref h' (objStrikes out) = [VNum 100; VNum 90; VNum 110] /\
   map (deref h') (deref h' (objIvs out)) =
     [[VNum (30#100); VNum (32#100)]; [VNum (40#100); VNum (41#100)];
      [VNum (20#100); VNum (25#100)]]).
Proof. vm_compute. repeat split; reflexivity. Qed.

(** C8 (as the code has it): with key ['iv'] and a numeric [expirationIndex]
    that is no valid index below [expirations.length] (negative, fractional,
    too large, or NaN), nothing is rejected: every comparison reads
    [undefined], the difference is NaN, SortCompare counts it as equal, and
    the stable sort keeps the input order, so the output is the input
    matrix. *)
Theorem sortedData_iv_out_of_range dt m cfg h :
  WellFormed h m -> key cfg = ivKey -> isNumber (expirationIndex cfg) = true ->
  (forall i, arrayIndex (expirationIndex cfg) = Some i ->
             (length (deref h (objExpirations m)) <= i)%nat) ->
  let (out, h') := sortedData dt m cfg h in
  deref h' (objStrikes out) = deref h (objStrikes m) /\
  deref h' (objExpirations out) = deref h (objExpirations m) /\
  map (deref h') (deref h' (objIvs out)) = map (deref h) (deref h (objIvs m)).
Proof.
  intros W Hk Hn Hr. apply (sortedData_identity dt m cfg h W).
  unfold sortedIndexArrays. rewrite Hk, Hn. f_equal.
  apply sortBy_no_less. intros a b. unfold ivComparator. cbv zeta.
  rewrite (wellformed_member_out_of_range h m _ a W Hr),
          (wellformed_member_out_of_range h m _ b W Hr).
  unfold directed. destruct (direction cfg); reflexivity.
Qed.

Lemma sortedData_iv_out_of_range_witness :
  WellFormed sHeap sObj /\ key (Build_SortConfig ivKey asc (VNum 5)) = ivKey /\
  isNumber (expirationIndex (Build_SortConfig ivKey asc (VNum 5))) = true /\
  (forall i, arrayIndex (expirationIndex (Build_SortConfig ivKey asc (VNum 5))) = Some i ->
             (length (deref sHeap (objExpirations sObj)) <= i)%nat) /\
  (let (out, h') := sortedData noDate sObj (Build_SortConfig ivKey asc (VNum 5)) sHeap in
   deref h' (objStrikes out) = deref sHeap (objStrikes sObj) /\
   deref h' (objExpirations out) = deref sHeap (objExpirations sObj) /\
   map (deref h') (deref h' (objIvs out)) = map (deref sHeap) (deref sHeap (objIvs sObj))).
Proof.
  pose proof sHeap_wellformed as W.
  assert (R : forall i, arrayIndex (expirationIndex (Build_SortConfig ivKey asc (VNum 5))) = Some i ->
                        (length (deref sHeap (objExpirations sObj)) <= i)%nat).
  { intros i Hi. vm_compute in Hi. injection Hi as <-. simpl. lia. }
  split; [exact W|]. split; [reflexivity|]. split; [reflexivity|]. split; [exact R|].
  apply (sortedData_iv_out_of_range noDate sObj _ sHeap W); [reflexivity|reflexivity|exact R].
Defined.

Lemma Qltb_spec x y : Qltb x y = true <-> x < y.
Proof.
  unfold Qltb. destruct (Qle_bool y x) eqn:E; simpl.
  - apply Qle_bool_iff in E. split; [discriminate|]. intros H. lra.
  - split; [intros _|reflexivity]. apply Qnot_le_lt. intros H.
    apply Qle_bool_iff in H. congruence.
Qed.

Lemma Qltb_false x y : Qltb x y = false <-> y <= x.
Proof.
  destruct (Qltb x y) eqn:E.
  - apply Qltb_spec in E. split; [discriminate|]. intros H. lra.
  - split; [intros _|reflexivity]. apply Qnot_lt_le. intros H.
    apply Qltb_spec in H. congruence.
Qed.

Ltac color_cases :=
  unfold getIVColor; cbv zeta;
  repeat match goal with
  | |- context [Qltb ?x ?y] =>
      let E := fresh "E" in
      destruct (Qltb x y) eqn:E;
      [apply Qltb_spec in E | apply Qltb_false in E]
  end;
  first [reflexivity | exfalso; lra].

(** C6 (counterexample): a difference of exactly -0.05 is the mild-cold
    class, not the strong one; and [getIVColor(0.36, 0.30)] (difference
    0.06) is the strong-hot class, not the mild one. *)
Lemma getIVColor_boundary_examples :
  getIVColor 0 (5#100) = "text-blue-400"%string /\
  getIVColor (36#100) (30#100) = "text-red-600 font-medium"%string.
Proof. split; reflexivity. Qed.

(** C6 (as the code has it): [getIVColor iv baseIV] buckets [diff = iv -
    baseIV] with strict thresholds: [diff < -0.05] strong-cold, [-0.05 <=
    diff < 0] mild-cold, [diff = 0] neutral, [0 < diff <= 0.05] mild-hot,
    [diff > 0.05] strong-hot. *)
Theorem getIVColor_buckets iv baseIV :
  let diff := iv - baseIV in
  (diff < -(5#100) -> getIVColor iv baseIV = "text-blue-600 font-medium"%string) /\
  (-(5#100) <= diff < 0 -> getIVColor iv baseIV = "text-blue-400"%string) /\
  (diff == 0 -> getIVColor iv baseIV = "text-gray-600"%string) /\
  (0 < diff <= 5#100 -> getIVColor iv baseIV = "text-red-400"%string) /\
  (5#100 < diff -> getIVColor iv baseIV = "text-red-600 font-medium"%string).
Proof.
  cbv zeta. repeat split; intros H; [| destruct H | | destruct H |]; color_cases.
Qed.

Lemma getIVColor_buckets_witness :
  getIVColor (20#100) (30#100) = "text-blue-600 font-medium"%string /\
  getIVColor 0 (5#100) = "text-blue-400"%string /\
  getIVColor (30#100) (30#100) = "text-gray-600"%string /\
  getIVColor (35#100) (30#100) = "text-red-400"%string /\
  getIVColor (36#100) (30#100) = "text-red-600 font-medium"%string.
Proof.
  split; [apply (proj1 (getIVColor_buckets (20#100) (30#100))); vm_compute; reflexivity|].
  split; [apply (proj1 (proj2 (getIVColor_buckets 0 (5#100)))); split; vm_compute;
          [discriminate | reflexivity]|].
  split; [apply (proj1 (proj2 (proj2 (getIVColor_buckets (30#100) (30#100))))); vm_compute;
          reflexivity|].
  split; [apply (proj1 (proj2 (proj2 (proj2 (getIVColor_buckets (35#100) (30#100))))));
          split; vm_compute; [reflexivity | discriminate]|].
  apply (proj2 (proj2 (proj2 (proj2 (getIVColor_buckets (36#100) (30#100)))))).
  vm_compute. reflexivity.
Defined.

(** ** Sorting order of [sortedData] *)

Section SortFactsIn.
Context {A : Type} (cmp : A -> A -> Q) (le : A -> A -> Prop) (P : A -> Prop).
Hypothesis le_before : forall x y, P x -> P y -> Qltb (cmp x y) 0 = true -> le x y.
Hypothesis le_after : forall x y, P x -> P y -> Qltb (cmp x y) 0 = false -> le y x.

Lemma insertBy_sorted_in x l :
  P x -> Forall P l -> Sorted le l -> Sorted le (insertBy cmp x l).
Proof.
  intros Px. induction l as [|y l IH]; intros Fl Hs; simpl; [auto|].
  inversion Fl as [|? ? Py Fl']; subst.
  destruct (Qltb (cmp x y) 0) eqn:E.
  - constructor; [exact Hs | constructor; auto].
  - apply Sorted_inv in Hs as [Hs Hd].
    constructor; [now apply IH|].
    destruct l as [|z l]; simpl.
    + constructor; auto.
    + destruct (Qltb (cmp x z) 0); constructor; auto.
      now inversion Hd.
Qed.

Lemma insertBy_Forall x l : P x -> Forall P l -> Forall P (insertBy cmp x l).
Proof.
  intros Px Fl. apply Forall_forall. intros z Hz.
  apply (Permutation_in _ (insertBy_perm cmp x l)) in Hz.
  destruct Hz as [<-|Hz]; [exact Px|]. now apply (proj1 (Forall_forall P l)).
Qed.

Lemma sortBy_sorted_in l : Forall P l -> Sorted le (sortBy cmp l).
Proof.
  unfold sortBy.
  assert (Hg : forall acc, Forall P acc -> Forall P l -> Sorted le acc ->
            Sorted le (fold_left (fun acc x => insertBy cmp x acc) l acc)).
  { induction l as [|x l IH]; intros acc Fa Fl Hacc; simpl; auto.
    inversion Fl; subst.
    apply IH; auto using insertBy_Forall, insertBy_sorted_in. }
  intros Fl. apply Hg; auto.
Qed.
End SortFactsIn.

Lemma Sorted_map_rel {A B} (R : B -> B -> Prop) (f : A -> B) l :
  Sorted (fun a b => R (f a) (f b)) l -> Sorted R (map f l).
Proof.
  induction 1 as [|x l Hs IH Hd]; simpl; constructor; auto.
  destruct Hd; simpl; constructor; auto.
Qed.

(** A comparator [(a, b) => direction === 'asc' ? f(a) - f(b) : -(f(a) -
    f(b))] over numeric keys sorts by [f], in the configured direction. *)
Lemma sortBy_directed_sorted cfg (f : val -> val) l :
  Forall (fun a => exists q, f a = VNum q) l ->
  Sorted (fun a b => dirLe (direction cfg) (f a) (f b))
         (sortBy (fun a b => sortCompare (directed cfg (sub (f a) (f b)))) l).
Proof.
  apply sortBy_sorted_in; intros x y (qx & Ex) (qy & Ey) H;
    rewrite Ex, Ey in *; unfold directed in H; simpl in H;
    destruct (direction cfg); simpl in H |- *;
    [apply Qltb_spec in H | apply Qltb_spec in H | apply Qltb_false in H | apply Qltb_false in H];
    do 2 eexists; (split; [reflexivity|]); (split; [reflexivity|]); lra.
Qed.

Lemma Forall_indexArray (P : val -> Prop) a :
  (forall i, (i < length a)%nat -> P (VNum (Z.of_nat i # 1))) -> Forall P (indexArray a).
Proof.
  intros HP. unfold indexArray. apply Forall_map, Forall_forall.
  intros i Hi. apply in_seq in Hi. apply HP. lia.
Qed.

Lemma Forall_nth_num (l : list val) i :
  Forall (fun v => exists q, v = VNum q) l -> (i < length l)%nat ->
  exists q, nth i l VUndef = VNum q.
Proof.
  intros F Hi. rewrite Forall_forall in F. apply F, nth_In, Hi.
Qed.

Lemma sortedData_sorted_output dt m cfg h :
  WellFormed h m ->
  let S := deref h (objStrikes m) in
  let E := deref h (objExpirations m) in
  let SI := fst (sortedIndexArrays dt m cfg h (indexArray S) (indexArray E)) in
  let EI := snd (sortedIndexArrays dt m cfg h (indexArray S) (indexArray E)) in
  let (out, h') := sortedData dt m cfg h in
  deref h' (objStrikes out) = map (member S) SI /\
  deref h' (objExpirations out) = map (member E) EI /\
  map (deref h') (deref h' (objIvs out)) =
    map (fun i => map (member (deref h (member (deref h (objIvs m)) i))) EI) SI.
Proof. intros [Hc _]. exact (sortedData_contents dt m cfg h Hc). Qed.

(** Sorting by strike (key ['strikes']) over numeric strikes returns the
    strikes in ascending order for ['asc'] and descending order for
    ['desc']. *)
Theorem sortedData_strikes_sorted dt m cfg h :
  WellFormed h m -> key cfg = strikesKey ->
  Forall (fun v => exists q, v = VNum q) (deref h (objStrikes m)) ->
  let (out, h') := sortedData dt m cfg h in
  Sorted (dirLe (direction cfg)) (deref h' (objStrikes out)).
Proof.
  intros W Hk Hn.
  pose proof (sortedData_sorted_output dt m cfg h W) as H. cbv zeta in H.
  revert H. destruct (sortedData dt m cfg h) as [out h']. intros (H1 & _ & _).
  rewrite H1. unfold sortedIndexArrays. rewrite Hk. simpl fst.
  apply Sorted_map_rel.
  apply (sortBy_directed_sorted cfg (member (deref h (objStrikes m)))).
  apply Forall_indexArray. intros i Hi. rewrite member_index.
  now apply Forall_nth_num.
Qed.

Lemma sortedData_strikes_sorted_witness :
  WellFormed sHeap sObj /\ key (Build_SortConfig strikesKey desc VUndef) = strikesKey /\
  Forall (fun v => exists q, v = VNum q) (deref sHeap (objStrikes sObj)) /\
  (let (out, h') := sortedData noDate sObj (Build_SortConfig strikesKey desc VUndef) sHeap in
   Sorted (dirLe (direction (Build_SortConfig strikesKey desc VUndef)))
          (deref h' (objStrikes out))).
Proof.
  assert (N : Forall (fun v => exists q, v = VNum q) (deref sHeap (objStrikes sObj))).
  { simpl. repeat constructor; eexists; reflexivity. }
  split; [exact sHeap_wellformed|]. split; [reflexivity|]. split; [exact N|].
  exact (sortedData_strikes_sorted noDate sObj (Build_SortConfig strikesKey desc VUndef) sHeap
           sHeap_wellformed eq_refl N).
Defined.

(** Sorting by expiration (key ['expirations']), when every expiration
    parses to a date, returns the expirations in chronological order for
    ['asc'] and reverse chronological order for ['desc'] (by
    [new Date(x).getTime()]). *)
Theorem sortedData_expirations_sorted dt m cfg h :
  WellFormed h m -> key cfg = expirationsKey ->
  Forall (fun e => exists q, dt e = VNum q) (deref h (objExpirations m)) ->
  let (out, h') := sortedData dt m cfg h in
  Sorted (fun x y => dirLe (direction cfg) (dt x) (dt y)) (deref h' (objExpirations out)).
Proof.
  intros W Hk Hn.
  pose proof (sortedData_sorted_output dt m cfg h W) as H. cbv zeta in H.
  revert H. destruct (sortedData dt m cfg h) as [out h']. intros (_ & H2 & _).
  rewrite H2. unfold sortedIndexArrays. rewrite Hk. simpl snd.
  apply (Sorted_map_rel (fun x y => dirLe (direction cfg) (dt x) (dt y))).
  apply (sortBy_directed_sorted cfg (fun a => dt (member (deref h (objExpirations m)) a))).
  apply Forall_indexArray. intros i Hi. rewrite member_index.
  rewrite Forall_forall in Hn. apply Hn, nth_In, Hi.
Qed.

Lemma sortedData_expirations_sorted_witness :
  WellFormed sHeap sObj /\ key (Build_SortConfig expirationsKey asc VUndef) = expirationsKey /\
  Forall (fun e => exists q, sHeapDate e = VNum q) (deref sHeap (objExpirations sObj)) /\
  (let (out, h') := sortedData sHeapDate sObj (Build_SortConfig expirationsKey asc VUndef) sHeap in
   Sorted (fun x y => dirLe (direction (Build_SortConfig expirationsKey asc VUndef))
                            (sHeapDate x) (sHeapDate y))
          (deref h' (objExpirations out))).
Proof.
  assert (N : Forall (fun e => exists q, sHeapDate e = VNum q) (deref sHeap (objExpirations sObj))).
  { simpl. repeat constructor; eexists; reflexivity. }
  split; [exact sHeap_wellformed|]. split; [reflexivity|]. split; [exact N|].
  exact (sortedData_expirations_sorted sHeapDate sObj (Build_SortConfig expirationsKey asc VUndef)
           sHeap sHeap_wellformed eq_refl N).
Defined.

(** Sorting by IV at column [j] (key ['iv'], [expirationIndex] a valid
    column), over a numeric IV grid, returns rows whose column [j] is
    ascending for ['asc'] and descending for ['desc']. *)
Theorem sortedData_iv_column_sorted dt m cfg h j :
  WellFormed h m -> key cfg = ivKey ->
  arrayIndex (expirationIndex cfg) = Some j ->
  (j < length (deref h (objExpirations m)))%nat ->
  Forall (fun v => Forall (fun c => exists q, c = VNum q) (deref h v)) (deref h (objIvs m)) ->
  let (out, h') := sortedData dt m cfg h in
  Sorted (dirLe (direction cfg))
         (map (fun row => nth j row VUndef) (map (deref h') (deref h' (objIvs out)))).
Proof.
  intros W Hk Hj HjE Hn.
  assert (Num : isNumber (expirationIndex cfg) = true).
  { destruct (expirationIndex cfg); try discriminate; reflexivity. }
  pose proof (sortedData_sorted_output dt m cfg h W) as H. cbv zeta in H.
  revert H. destruct (sortedData dt m cfg h) as [out h']. intros (_ & _ & H3).
  rewrite H3. unfold sortedIndexArrays. rewrite Hk, Num. simpl fst. simpl snd.
  rewrite map_map.
  set (f := fun a => member (deref h (member (deref h (objIvs m)) a)) (expirationIndex cfg)).
  rewrite (map_ext _ f).
  2:{ intros a. unfold f. rewrite nth_indep with (d' := member (deref h (member (deref h (objIvs m)) a)) (VNum 0)).
      2:{ rewrite length_map. unfold indexArray. rewrite length_map, length_seq. exact HjE. }
      rewrite map_nth. unfold indexArray. rewrite map_nth with (d := 0%nat).
      rewrite seq_nth by exact HjE. simpl. rewrite member_index.
      unfold member at 2. rewrite Hj. reflexivity. }
  apply Sorted_map_rel.
  apply (sortBy_directed_sorted cfg f).
  destruct W as (_ & HL & Hrows).
  apply Forall_indexArray. intros i Hi. unfold f. rewrite member_index.
  assert (Hin : In (nth i (deref h (objIvs m)) VUndef) (deref h (objIvs m)))
    by (apply nth_In; lia).
  rewrite Forall_forall in Hrows, Hn.
  destruct (Hrows _ Hin) as (l & El & Hl). specialize (Hn _ Hin).
  rewrite El in Hn |- *. simpl deref in Hn |- *.
  unfold member. rewrite Hj. apply Forall_nth_num; [exact Hn | lia].
Qed.

Lemma sortedData_iv_column_sorted_witness :
  WellFormed sHeap sObj /\ key (Build_SortConfig ivKey asc (VNum 1)) = ivKey /\
  arrayIndex (expirationIndex (Build_SortConfig ivKey asc (VNum 1))) = Some 1%nat /\
  (1 < length (deref sHeap (objExpirations sObj)))%nat /\
  Forall (fun v => Forall (fun c => exists q, c = VNum q) (deref sHeap v))
         (deref sHeap (objIvs sObj)) /\
  (let (out, h') := sortedData noDate sObj (Build_SortConfig ivKey asc (VNum 1)) sHeap in
   Sorted (dirLe (direction (Build_SortConfig ivKey asc (VNum 1))))
          (map (fun row => nth 1 row VUndef) (map (deref h') (deref h' (objIvs out))))).
Proof.
  assert (N : Forall (fun v => Forall (fun c => exists q, c = VNum q) (deref sHeap v))
                     (deref sHeap (objIvs sObj))).
  { simpl. repeat constructor; eexists; reflexivity. }
  assert (J : arrayIndex (expirationIndex (Build_SortConfig ivKey asc (VNum 1))) = Some 1%nat)
    by reflexivity.
  assert (L : (1 < length (deref sHeap (objExpirations sObj)))%nat) by (simpl; lia).
  split; [exact sHeap_wellformed|]. split; [reflexivity|]. split; [exact J|].
  split; [exact L|]. split; [exact N|].
  exact (sortedData_iv_column_sorted noDate sObj (Build_SortConfig ivKey asc (VNum 1)) sHeap 1
           sHeap_wellformed eq_refl J L N).
Defined.

(** ** Sort state *)

Lemma Qeq_bool_index a b : Qeq_bool (Z.of_nat a # 1) (Z.of_nat b # 1) = Nat.eqb a b.
Proof.
  destruct (Qeq_bool _ _) eqn:E; destruct (Nat.eqb a b) eqn:F; auto.
  - apply Qeq_bool_iff in E. unfold Qeq in E. simpl in E.
    apply PeanoNat.Nat.eqb_neq in F. lia.
  - apply PeanoNat.Nat.eqb_eq in F. subst. rewrite Qeq_bool_refl in E. discriminate.
Qed.

(** After a click on a header of the table, that header is the one shown
    as active, and no other header (strike, expirations, or the IV header
    of another column) is. *)
Theorem clickHeader_active cfg hd hd' :
  headerActive (clickHeader hd cfg) hd' = true <-> hd' = hd.
Proof.
  unfold headerActive, clickHeader, handleSort, isActive.
  destruct hd as [| |j], hd' as [| |j']; simpl; split; intros H;
    try discriminate; try reflexivity.
  - rewrite Qeq_bool_index in H. apply PeanoNat.Nat.eqb_eq in H. now subst.
  - injection H as ->. now rewrite Qeq_bool_index, PeanoNat.Nat.eqb_refl.
Qed.

(** [handleSort] stores an index only with key ['iv']. *)
Lemma clickAll_noIndex c hds :
  (SortKey_eqb (key c) ivKey = false -> expirationIndex c = VUndef) ->
  SortKey_eqb (key (clickAll c hds)) ivKey = false ->
  expirationIndex (clickAll c hds) = VUndef.
Proof.
  unfold clickAll. revert c. induction hds as [|hd hds IH]; intros c Hc; simpl; auto.
  apply IH. unfold clickHeader, handleSort. simpl.
  destruct (SortKey_eqb (headerKey hd) ivKey); [discriminate | reflexivity].
Qed.

(** From the initial configuration, whatever headers were clicked before:
    clicking a header that is not active sorts ascending, and clicking the
    active header flips the direction. *)
Theorem clickHeader_direction hds hd :
  let cfg := clickAll initialSortConfig hds in
  direction (clickHeader hd cfg) =
    if headerActive cfg hd then flipDirection (direction cfg) else asc.
Proof.
  intros cfg.
  assert (Hc : SortKey_eqb (key cfg) ivKey = false -> expirationIndex cfg = VUndef)
    by (apply clickAll_noIndex; reflexivity).
  unfold clickHeader, handleSort, headerActive, isActive. simpl.
  destruct (key cfg) eqn:K, hd as [| |j]; simpl; try reflexivity;
    try (rewrite Hc by reflexivity; simpl);
    destruct (direction cfg); simpl; try reflexivity;
    destruct (strictEq _ _); reflexivity.
Qed.

(** Clicks on the headers of a table with [n] expiration columns only ever
    produce a configuration whose key is ['iv'] with a column index below
    [n], or another key with no index: the out-of-range IV sort is not
    reachable from the headers of the table on screen. *)
Theorem clickAll_index_in_range n hds :
  Forall (headerOf n) hds ->
  let cfg := clickAll initialSortConfig hds in
  (key cfg = ivKey -> exists j, (j < n)%nat /\ expirationIndex cfg = VNum (Z.of_nat j # 1)) /\
  (key cfg <> ivKey -> expirationIndex cfg = VUndef).
Proof.
  intros F. unfold clickAll.
  assert (G : forall c, (key c = ivKey -> exists j, (j < n)%nat /\
                                           expirationIndex c = VNum (Z.of_nat j # 1)) ->
                        (key c <> ivKey -> expirationIndex c = VUndef) ->
            let c' := fold_left (fun c hd => clickHeader hd c) hds c in
            (key c' = ivKey -> exists j, (j < n)%nat /\
                                         expirationIndex c' = VNum (Z.of_nat j # 1)) /\
            (key c' <> ivKey -> expirationIndex c' = VUndef)).
  { induction F as [|hd hds Hhd F IH]; intros c H1 H2; simpl; auto.
    apply IH; unfold clickHeader, handleSort; destruct hd as [| |j]; simpl;
      intros H; try discriminate; try reflexivity.
    - exists j. split; [exact Hhd | reflexivity].
    - congruence. }
  apply G; simpl; [discriminate | reflexivity].
Qed.

Lemma clickAll_index_in_range_witness :
  Forall (headerOf 2) [IvHeader 1; StrikeHeader; IvHeader 0] /\
  (let cfg := clickAll initialSortConfig [IvHeader 1; StrikeHeader; IvHeader 0] in
   (key cfg = ivKey -> exists j, (j < 2)%nat /\ expirationIndex cfg = VNum (Z.of_nat j # 1)) /\
   (key cfg <> ivKey -> expirationIndex cfg = VUndef)).
Proof.
  assert (F : Forall (headerOf 2) [IvHeader 1; StrikeHeader; IvHeader 0])
    by (repeat constructor; simpl; lia).
  split; [exact F|]. exact (clickAll_index_in_range 2 _ F).
Defined.

(** ** Cell colours of [SurfaceTable] *)

Lemma nth_map_seq {A} (f : nat -> A) n i d : (i < n)%nat -> nth i (map f (seq 0 n)) d = f i.
Proof.
  intros Hi. rewrite nth_indep with (d' := f 0%nat) by (rewrite length_map, length_seq; exact Hi).
  rewrite map_nth, seq_nth by exact Hi. reflexivity.
Qed.

Lemma cellClasses_nth d i j :
  (i < length (strikes d))%nat -> (j < length (nth i (ivs d) []))%nat ->
  nth j (nth i (cellClasses d) []) ""%string =
    getIVColor (nth j (nth i (ivs d) []) 0) (baseIV d j).
Proof.
  intros Hi Hj. unfold cellClasses. rewrite nth_map_seq by exact Hi. cbv zeta.
  rewrite nth_map_seq by exact Hj. reflexivity.
Qed.

Lemma getIVColor_same x : getIVColor x x = "text-gray-600"%string.
Proof. color_cases. Qed.

Lemma map_const_repeat {A B} (c : B) (l : list A) : map (fun _ => c) l = repeat c (length l).
Proof. induction l; simpl; congruence. Qed.

(** The row of [baseIVRow] (the middle strike) is the reference of every
    column, so all its cells get the neutral class. *)
Theorem cellClasses_base_row_neutral d :
  (0 < length (strikes d))%nat -> length (ivs d) = length (strikes d) ->
  nth (baseIVRow d) (cellClasses d) [] =
    repeat "text-gray-600"%string (length (nth (baseIVRow d) (ivs d) [])).
Proof.
  intros Hn HL.
  assert (Hr : (baseIVRow d < length (strikes d))%nat)
    by (unfold baseIVRow; apply PeanoNat.Nat.div_lt; lia).
  unfold cellClasses. rewrite nth_map_seq by exact Hr. cbv zeta.
  transitivity (map (fun _ : nat => "text-gray-600"%string)
                    (seq 0 (length (nth (baseIVRow d) (ivs d) []))));
    [| now rewrite map_const_repeat, length_seq].
  apply map_ext_in. intros j Hj. apply in_seq in Hj.
  unfold baseIV. rewrite (nth_error_nth' (ivs d) [] (n := baseIVRow d)) by lia.
  rewrite (nth_error_nth' _ 0 (n := j)) by lia.
  apply getIVColor_same.
Qed.

Lemma cellClasses_base_row_neutral_witness :
  let d := {| strikes := [90; 100; 110]; expirations := ["2024-06-21"%string];
              ivs := [[20#100]; [30#100]; [40#100]]; underlyingPrice := 100 |} in
  ((0 < length (strikes d))%nat /\ length (ivs d) = length (strikes d)) /\
  nth (baseIVRow d) (cellClasses d) [] =
    repeat "text-gray-600"%string (length (nth (baseIVRow d) (ivs d) [])).
Proof.
  intros d. assert (H : (0 < length (strikes d))%nat /\ length (ivs d) = length (strikes d))
    by (simpl; split; [lia | reflexivity]).
  split; [exact H|]. exact (cellClasses_base_row_neutral d (proj1 H) (proj2 H)).
Defined.

Lemma getIVColor_rank_monotone b x y :
  x <= y -> (colorRank (getIVColor x b) <= colorRank (getIVColor y b))%nat.
Proof.
  intros Hxy. unfold getIVColor. cbv zeta.
  repeat match goal with
  | |- context [Qltb ?u ?v] =>
      let E := fresh "E" in
      destruct (Qltb u v) eqn:E;
      [apply Qltb_spec in E | apply Qltb_false in E]
  end;
  first [exfalso; lra | vm_compute; lia].
Qed.

(** Within one column every cell is compared with the same reference, so a
    higher IV never gets a colder class than a lower IV of the same column
    (classes ordered blue-600, blue-400, gray, red-400, red-600). *)
Theorem cellClasses_column_monotone d i1 i2 j :
  (i1 < length (strikes d))%nat -> (i2 < length (strikes d))%nat ->
  (j < length (nth i1 (ivs d) []))%nat -> (j < length (nth i2 (ivs d) []))%nat ->
  nth j (nth i1 (ivs d) []) 0 <= nth j (nth i2 (ivs d) []) 0 ->
  (colorRank (nth j (nth i1 (cellClasses d) []) ""%string) <=
   colorRank (nth j (nth i2 (cellClasses d) []) ""%string))%nat.
Proof.
  intros H1 H2 J1 J2 Hle.
  rewrite !cellClasses_nth by assumption.
  now apply getIVColor_rank_monotone.
Qed.

Lemma cellClasses_column_monotone_witness :
  let d := {| strikes := [90; 100; 110]; expirations := ["2024-06-21"%string];
              ivs := [[20#100]; [30#100]; [40#100]]; underlyingPrice := 100 |} in
  (colorRank (nth 0 (nth 0 (cellClasses d) []) ""%string) <=
   colorRank (nth 0 (nth 2 (cellClasses d) []) ""%string))%nat.
Proof.
  intros d. apply (cellClasses_column_monotone d 0 2 0); simpl; try lia.
  vm_compute. discriminate.
Defined.

(** ** The first draft's grouping *)

Section DictFacts.
Context {K V : Type} (eqR : K -> K -> Prop) `{Equivalence K eqR}.
Variable eqb : K -> K -> bool.
Hypothesis eqb_spec : forall x y, eqb x y = true <-> eqR x y.

Lemma eqb_false_trans k k0 k' :
  eqb k k0 = true -> eqb k' k = false -> eqb k' k0 = false.
Proof.
  intros E F. destruct (eqb k' k0) eqn:G; auto.
  apply eqb_spec in E, G. assert (eqR k' k) by (rewrite G; symmetry; exact E).
  apply eqb_spec in H0. congruence.
Qed.

Lemma dictGet_set_same k (v : V) d : OldDraft.dictGet eqb k (OldDraft.dictSet eqb k v d) = Some v.
Proof.
  induction d as [|[k0 v0] d IH]; simpl.
  - assert (E : eqb k k = true) by (apply eqb_spec; reflexivity). now rewrite E.
  - destruct (eqb k k0) eqn:E; simpl; rewrite ?E; auto.
Qed.

Lemma dictGet_set_other k k' (v : V) d :
  eqb k' k = false -> OldDraft.dictGet eqb k' (OldDraft.dictSet eqb k v d) = OldDraft.dictGet eqb k' d.
Proof.
  intros F. induction d as [|[k0 v0] d IH]; simpl.
  - now rewrite F.
  - destruct (eqb k k0) eqn:E; simpl.
    + now rewrite (eqb_false_trans k k0 k' E F).
    + now rewrite IH.
Qed.

Lemma dictGet_proper k k' (d : list (K * V)) :
  eqR k k' -> OldDraft.dictGet eqb k d = OldDraft.dictGet eqb k' d.
Proof.
  intros Hk. induction d as [|[k0 v0] d IH]; simpl; auto.
  destruct (eqb k k0) eqn:E, (eqb k' k0) eqn:F; auto.
  - apply eqb_spec in E. assert (eqR k' k0) by (rewrite <- Hk; exact E).
    apply eqb_spec in H0. congruence.
  - apply eqb_spec in F. assert (eqR k k0) by (rewrite Hk; exact F).
    apply eqb_spec in H0. congruence.
Qed.

Lemma dictGet_keys k (d : list (K * V)) :
  (exists v, OldDraft.dictGet eqb k d = Some v) <-> existsb (eqb k) (map fst d) = true.
Proof.
  induction d as [|[k0 v0] d IH]; simpl.
  - split; [intros (v & ?); discriminate | discriminate].
  - destruct (eqb k k0); simpl; [split; eauto|exact IH].
Qed.

Lemma dictSet_keys k (v : V) d :
  map fst (OldDraft.dictSet eqb k v d) =
    if existsb (eqb k) (map fst d) then map fst d else map fst d ++ [k].
Proof.
  induction d as [|[k0 v0] d IH]; simpl; auto.
  destruct (eqb k k0); simpl; auto. rewrite IH.
  destruct (existsb (eqb k) (map fst d)); reflexivity.
Qed.
End DictFacts.

Lemma orZero_idem x : OldDraft.orZero (Some (OldDraft.orZero x)) = OldDraft.orZero x.
Proof.
  unfold OldDraft.orZero. destruct x as [q|]; [|reflexivity].
  destruct (truthyNum q) eqn:E; [now rewrite E | reflexivity].
Qed.


Lemma draft_ownStep_member2 acc o e s :
  OldDraft.member2 (OldDraft.ownStep acc o) e s =
    if String.eqb e (OldDraft.expiration_date o) && Qeq_bool s (OldDraft.strike_price o)
    then Some (OldDraft.orZero (OldDraft.implied_volatility o))
    else OldDraft.member2 acc e s.
Proof.
  unfold OldDraft.member2, OldDraft.ownStep. cbv zeta.
  set (x := OldDraft.expiration_date o). set (k := OldDraft.strike_price o).
  set (iv := OldDraft.orZero (OldDraft.implied_volatility o)).
  destruct (String.eqb e x) eqn:Ex; simpl.
  - apply String.eqb_eq in Ex. subst e.
    rewrite (dictGet_set_same eq String.eqb string_eqb_spec).
    destruct (Qeq_bool s k) eqn:Es.
    + rewrite (dictGet_proper Qeq Qeq_bool Qeq_bool_spec s k) by (now apply Qeq_bool_iff).
      apply (dictGet_set_same Qeq Qeq_bool Qeq_bool_spec).
    + rewrite (dictGet_set_other Qeq Qeq_bool Qeq_bool_spec) by exact Es.
      destruct (OldDraft.dictGet String.eqb x acc) as [r|] eqn:Ea.
      * now rewrite Ea.
      * rewrite (dictGet_set_same eq String.eqb string_eqb_spec). reflexivity.
  - rewrite (dictGet_set_other eq String.eqb string_eqb_spec) by exact Ex.
    destruct (OldDraft.dictGet String.eqb x acc); [reflexivity|].
    rewrite (dictGet_set_other eq String.eqb string_eqb_spec) by exact Ex. reflexivity.
Qed.

Lemma draft_ownStep_keys acc o :
  map fst (OldDraft.ownStep acc o) =
    if existsb (String.eqb (OldDraft.expiration_date o)) (map fst acc)
    then map fst acc else map fst acc ++ [OldDraft.expiration_date o].
Proof.
  unfold OldDraft.ownStep. cbv zeta.
  set (x := OldDraft.expiration_date o).
  destruct (OldDraft.dictGet String.eqb x acc) as [r|] eqn:Ea.
  - rewrite dictSet_keys.
    assert (E : existsb (String.eqb x) (map fst acc) = true)
      by (apply dictGet_keys; eauto).
    now rewrite E.
  - rewrite (dictGet_set_same eq String.eqb string_eqb_spec).
    rewrite dictSet_keys.
    rewrite dictSet_keys.
    destruct (existsb (String.eqb x) (map fst acc)) eqn:E.
    + apply dictGet_keys in E as (v & Ev). congruence.
    + assert (E2 : existsb (String.eqb x) (map fst acc ++ [x]) = true).
      { rewrite existsb_app. simpl. now rewrite String.eqb_refl, orb_true_r. }
      now rewrite E2.
Qed.

Lemma isProtoKey_false x : OldDraft.isProtoKey x = false <-> ~ In x OldDraft.objectPrototypeKeys.
Proof.
  unfold OldDraft.isProtoKey. rewrite <- not_true_iff_false, existsb_exists.
  split; intros H; [intros Hin; apply H; exists x; now rewrite String.eqb_refl|].
  intros (y & Hy & E). apply String.eqb_eq in E. subst. contradiction.
Qed.

(** A record whose expiration is not a prototype name goes to its own key. *)
Lemma draft_groupStep_plain acc o :
  OldDraft.isProtoKey (OldDraft.expiration_date o) = false ->
  OldDraft.groupStep acc o = Some (OldDraft.ownStep acc o).
Proof.
  intros Hp. unfold OldDraft.groupStep. cbv zeta.
  destruct (OldDraft.dictGet _ _ _); [reflexivity|].
  destruct (String.eqb (OldDraft.expiration_date o) "__proto__") eqn:E.
  - apply String.eqb_eq in E. rewrite E in Hp. discriminate.
  - now rewrite Hp.
Qed.

Lemma draft_groupStep_cases acc o acc' :
  OldDraft.groupStep acc o = Some acc' ->
  (acc' = acc /\ existsb (String.eqb (OldDraft.expiration_date o)) (map fst acc) = false /\
   OldDraft.isProtoKey (OldDraft.expiration_date o) = true) \/
  (acc' = OldDraft.ownStep acc o /\
   (existsb (String.eqb (OldDraft.expiration_date o)) (map fst acc) = true \/
    OldDraft.isProtoKey (OldDraft.expiration_date o) = false)).
Proof.
  unfold OldDraft.groupStep. cbv zeta. set (x := OldDraft.expiration_date o).
  destruct (OldDraft.dictGet String.eqb x acc) as [r|] eqn:Ea.
  - intros [= <-]. right. split; [reflexivity|]. left. apply dictGet_keys. eauto.
  - destruct (String.eqb x "__proto__"); [discriminate|].
    assert (Ek : existsb (String.eqb x) (map fst acc) = false).
    { apply not_true_iff_false. intros Ek. apply dictGet_keys in Ek as (v & Ev). congruence. }
    destruct (OldDraft.isProtoKey x) eqn:Ep; intros [= <-].
    + left. auto.
    + right. auto.
Qed.

Lemma draft_groupStep_defined acc o :
  OldDraft.expiration_date o <> "__proto__"%string ->
  exists acc', OldDraft.groupStep acc o = Some acc'.
Proof.
  intros Hn. unfold OldDraft.groupStep. cbv zeta.
  destruct (OldDraft.dictGet _ _ _); [eauto|].
  destruct (String.eqb (OldDraft.expiration_date o) "__proto__") eqn:E.
  - apply String.eqb_eq in E. contradiction.
  - destruct (OldDraft.isProtoKey _); eauto.
Qed.

Lemma draft_fold_none l : fold_left OldDraft.reduceStep l None = None.
Proof. induction l; simpl; auto. Qed.

(** The own keys of the grouping: the distinct expirations, in first-seen
    order, of the records whose expiration is not a prototype name. *)
Lemma draft_grouped_keys_acc l acc :
  Forall (fun o => OldDraft.expiration_date o <> "__proto__"%string) l ->
  Forall (fun k => OldDraft.isProtoKey k = false) (map fst acc) ->
  exists g, fold_left OldDraft.reduceStep l (Some acc) = Some g /\
    map fst g = setAdd String.eqb (map fst acc)
                  (map OldDraft.expiration_date
                     (filter (fun o => negb (OldDraft.isProtoKey (OldDraft.expiration_date o))) l)) /\
    Forall (fun k => OldDraft.isProtoKey k = false) (map fst g).
Proof.
  revert acc. induction l as [|o l IH]; intros acc Hl Hacc; simpl.
  - eauto.
  - inversion Hl as [|? ? Ho Hl']; subst.
    destruct (draft_groupStep_defined acc o Ho) as (acc' & Ea).
    rewrite Ea.
    destruct (draft_groupStep_cases acc o acc' Ea) as [(-> & Ek & Ep) | (-> & Hk)].
    + rewrite Ep. simpl. now apply IH.
    + assert (Ep : OldDraft.isProtoKey (OldDraft.expiration_date o) = false).
      { destruct Hk as [Hk|Hk]; [|exact Hk].
        apply existsb_exists in Hk as (k & Hin & Ek). apply String.eqb_eq in Ek.
        rewrite Forall_forall in Hacc. rewrite Ek. now apply Hacc. }
      rewrite Ep. simpl.
      destruct (IH (OldDraft.ownStep acc o) Hl') as (g & Eg & Kg & Pg).
      { rewrite draft_ownStep_keys. destruct (existsb _ _); [exact Hacc|].
        apply Forall_app. split; [exact Hacc|]. now constructor. }
      exists g. split; [exact Eg|]. split; [|exact Pg].
      rewrite Kg, draft_ownStep_keys. reflexivity.
Qed.

Lemma draft_grouped_keys raw :
  Forall (fun o => OldDraft.expiration_date o <> "__proto__"%string) raw ->
  exists g, OldDraft.grouped raw = Some g /\
    map fst g = uniq String.eqb
                  (map OldDraft.expiration_date
                     (filter (fun o => negb (OldDraft.isProtoKey (OldDraft.expiration_date o))) raw)).
Proof.
  intros H. destruct (draft_grouped_keys_acc raw [] H (Forall_nil _)) as (g & E & K & _).
  eauto.
Qed.

Lemma draft_member2_fold l acc g e s :
  Forall (fun o' => ~ (OldDraft.expiration_date o' = e /\ OldDraft.strike_price o' == s)) l ->
  fold_left OldDraft.reduceStep l (Some acc) = Some g ->
  OldDraft.member2 g e s = OldDraft.member2 acc e s.
Proof.
  intros F. revert acc; induction F as [|o' l Ho F IH]; intros acc E; simpl in E.
  - congruence.
  - destruct (OldDraft.groupStep acc o') as [acc'|] eqn:Ea;
      [|rewrite draft_fold_none in E; discriminate].
    rewrite (IH _ E).
    destruct (draft_groupStep_cases acc o' acc' Ea) as [(-> & _) | (-> & _)]; [reflexivity|].
    rewrite draft_ownStep_member2.
    destruct (String.eqb e (OldDraft.expiration_date o')) eqn:E1,
             (Qeq_bool s (OldDraft.strike_price o')) eqn:E2; simpl; auto.
    exfalso. apply Ho. apply String.eqb_eq in E1. apply Qeq_bool_iff in E2.
    split; [congruence | now symmetry].
Qed.

Lemma draft_member2_proper g e s s' :
  s == s' -> OldDraft.member2 g e s = OldDraft.member2 g e s'.
Proof.
  intros Hs. unfold OldDraft.member2. destruct (OldDraft.dictGet String.eqb e g); auto.
  now apply (dictGet_proper Qeq Qeq_bool Qeq_bool_spec).
Qed.

Lemma draft_ivs_nth ld raw g i j :
  let d := OldDraft.buildOptionsData ld raw g in
  (i < length (OldDraft.strikes d))%nat -> (j < length (OldDraft.sortedExpirations g))%nat ->
  nth j (nth i (OldDraft.ivs d) []) 0 =
    OldDraft.cell g (nth j (OldDraft.sortedExpirations g) ""%string)
                  (nth i (OldDraft.strikes d) 0).
Proof.
  intros d Hi Hj. unfold d, OldDraft.buildOptionsData in *. simpl in *.
  rewrite nth_indep with (d' := map (fun exp => OldDraft.cell g exp 0)
                                    (OldDraft.sortedExpirations g))
    by (rewrite length_map; exact Hi).
  rewrite (map_nth (fun strike => map (fun exp => OldDraft.cell g exp strike)
                                      (OldDraft.sortedExpirations g))).
  rewrite nth_indep with (d' := OldDraft.cell g ""%string
                                  (nth i (sortBy strikeCmp (uniq Qeq_bool
                                     (map OldDraft.strike_price raw))) 0))
    by (rewrite length_map; exact Hj).
  apply (map_nth (fun exp => OldDraft.cell g exp _)).
Qed.

(** The first draft groups the records by overwriting.  Take a response in
    which no expiration is ["__proto__"], and a record [o] whose expiration
    is not the name of an [Object.prototype] property.  If no later record
    has the same (expiration, strike) cell, the stored table has a row for
    [o]'s strike and a column for [o]'s expiration.  Their cell holds [o]'s
    IV, or 0 when it has none: the last record of a cell wins. *)
Theorem draft_last_record_wins ld pre o post st :
  Forall (fun o' => OldDraft.expiration_date o' <> "__proto__"%string) (pre ++ o :: post) ->
  ~ In (OldDraft.expiration_date o) OldDraft.objectPrototypeKeys ->
  Forall (fun o' => ~ (OldDraft.expiration_date o' = OldDraft.expiration_date o /\
                       OldDraft.strike_price o' == OldDraft.strike_price o)) post ->
  let raw := pre ++ o :: post in
  exists g, OldDraft.grouped raw = Some g /\
  let d := OldDraft.buildOptionsData ld raw g in
  OldDraft.processOptionsData ld raw st =
    Some {| OldDraft.loading := OldDraft.loading st; OldDraft.error := OldDraft.error st;
            OldDraft.optionsData := Some d |} /\
  exists i j, (i < length (OldDraft.strikes d))%nat /\
              (j < length (OldDraft.sortedExpirations g))%nat /\
              nth i (OldDraft.strikes d) 0 == OldDraft.strike_price o /\
              nth j (OldDraft.sortedExpirations g) ""%string = OldDraft.expiration_date o /\
              nth j (OldDraft.expirations d) ""%string = ld (OldDraft.expiration_date o) /\
              nth j (nth i (OldDraft.ivs d) []) 0 = OldDraft.orZero (OldDraft.implied_volatility o).
Proof.
  intros Hall Ho Hpost raw.
  apply isProtoKey_false in Ho.
  destruct (draft_grouped_keys raw Hall) as (g & Eg & Kg).
  exists g. split; [exact Eg|]. intros d.
  split; [unfold OldDraft.processOptionsData; rewrite Eg; now destruct pre|].
  assert (Hs : InA Qeq (OldDraft.strike_price o) (OldDraft.strikes d)).
  { unfold d, OldDraft.buildOptionsData. simpl.
    apply sortBy_InA, (uniq_InA Qeq Qeq_bool Qeq_bool_spec).
    apply In_InA; [exact _|]. apply in_map. unfold raw. apply in_or_app. simpl. auto. }
  assert (He : In (OldDraft.expiration_date o) (OldDraft.sortedExpirations g)).
  { apply InA_eq_In. unfold OldDraft.sortedExpirations. apply sortBy_InA.
    rewrite Kg. apply (uniq_InA eq String.eqb string_eqb_spec).
    apply InA_eq_In, in_map, filter_In. split; [|now rewrite Ho].
    unfold raw. apply in_or_app. simpl. auto. }
  destruct (InA_nth_Q _ _ Hs) as (i & Hi & Ei).
  destruct (In_nth _ _ ""%string He) as (j & Hj & Ej).
  exists i, j. split; [exact Hi|]. split; [exact Hj|]. split; [exact Ei|]. split; [exact Ej|].
  split.
  { unfold d, OldDraft.buildOptionsData. simpl.
    rewrite nth_indep with (d' := ld ""%string) by (rewrite length_map; exact Hj).
    rewrite map_nth. now rewrite Ej. }
  pose proof (draft_ivs_nth ld raw g i j Hi Hj) as Hc. cbv zeta in Hc. fold d in Hc.
  rewrite Hc, Ej.
  unfold OldDraft.cell. rewrite (draft_member2_proper _ _ _ _ Ei).
  unfold OldDraft.grouped, raw in Eg. rewrite fold_left_app in Eg. simpl in Eg.
  assert (Hpre : Forall (fun o' => OldDraft.expiration_date o' <> "__proto__"%string) pre).
  { apply Forall_forall. intros x Hx. rewrite Forall_forall in Hall.
    apply Hall. apply in_or_app. auto. }
  destruct (draft_grouped_keys_acc pre [] Hpre (Forall_nil _)) as (a & Ea & _).
  rewrite Ea in Eg. simpl in Eg. rewrite (draft_groupStep_plain a o Ho) in Eg.
  rewrite (draft_member2_fold post _ g _ _ Hpost Eg).
  rewrite draft_ownStep_member2, String.eqb_refl, Qeq_bool_refl. simpl.
  apply orZero_idem.
Qed.

Lemma draft_last_record_wins_witness :
  exists g, OldDraft.grouped OldDraft.draftInput = Some g /\
  let d := OldDraft.buildOptionsData (fun s => s) OldDraft.draftInput g in
  exists i j, nth i (OldDraft.strikes d) 0 == 100 /\
              nth j (OldDraft.sortedExpirations g) ""%string = "2024-06-21"%string /\
              nth j (nth i (OldDraft.ivs d) []) 0 = 40#100.
Proof.
  assert (F : Forall (fun o' => OldDraft.expiration_date o' <> "__proto__"%string)
                     OldDraft.draftInput).
  { repeat constructor; simpl; discriminate. }
  assert (Ho : ~ In "2024-06-21"%string OldDraft.objectPrototypeKeys).
  { simpl. intros H. repeat destruct H as [H|H]; discriminate || exact H. }
  assert (Hp : Forall (fun o' => ~ (OldDraft.expiration_date o' = "2024-06-21"%string /\
                                   OldDraft.strike_price o' == 100))
                      [nth 3 OldDraft.draftInput
                         {| OldDraft.expiration_date := ""; OldDraft.strike_price := 0;
                            OldDraft.implied_volatility := None |}]).
  { constructor; [|constructor]. simpl. intros [H _]. discriminate. }
  destruct (draft_last_record_wins (fun s => s)
              (firstn 2 OldDraft.draftInput)
              (nth 2 OldDraft.draftInput
                 {| OldDraft.expiration_date := ""; OldDraft.strike_price := 0;
                    OldDraft.implied_volatility := None |})
              [nth 3 OldDraft.draftInput
                 {| OldDraft.expiration_date := ""; OldDraft.strike_price := 0;
                    OldDraft.implied_volatility := None |}]
              {| OldDraft.loading := false; OldDraft.error := ""; OldDraft.optionsData := None |}
              F Ho Hp) as (g & Eg & _ & i & j & _ & _ & Ei & Ej & _ & Ec).
  exists g. split; [exact Eg|]. exists i, j. split; [exact Ei|]. split; [exact Ej|]. exact Ec.
Defined.

(** For a non-empty response in which no expiration is ["__proto__"], the
    first draft stores a table with these properties.  Its strikes are the
    distinct strikes of all records, strictly increasing.  Its expirations
    are the distinct expirations that are not names of [Object.prototype]
    properties, sorted in code-unit order and then localised.  It has one
    IV row per strike and one entry per expiration in each row. *)
Theorem draft_shape ld raw st :
  raw <> [] ->
  Forall (fun o => OldDraft.expiration_date o <> "__proto__"%string) raw ->
  exists g, OldDraft.grouped raw = Some g /\
  let d := OldDraft.buildOptionsData ld raw g in
  OldDraft.processOptionsData ld raw st =
    Some {| OldDraft.loading := OldDraft.loading st; OldDraft.error := OldDraft.error st;
            OldDraft.optionsData := Some d |} /\
  Sorted Qlt (OldDraft.strikes d) /\
  (forall s, InA Qeq s (OldDraft.strikes d) <->
             exists o, In o raw /\ OldDraft.strike_price o == s) /\
  Sorted String_as_OT.lt (OldDraft.sortedExpirations g) /\
  (forall e, In e (OldDraft.sortedExpirations g) <->
             exists o, In o raw /\ OldDraft.expiration_date o = e /\
                       ~ In e OldDraft.objectPrototypeKeys) /\
  OldDraft.expirations d = map ld (OldDraft.sortedExpirations g) /\
  length (OldDraft.ivs d) = length (OldDraft.strikes d) /\
  Forall (fun row => length row = length (OldDraft.expirations d)) (OldDraft.ivs d).
Proof.
  intros Hne Hall.
  destruct (draft_grouped_keys raw Hall) as (g & Eg & Kg).
  exists g. split; [exact Eg|]. intros d.
  assert (NS : NoDupA Qeq (OldDraft.strikes d)).
  { apply sortBy_NoDupA; [exact _|]. apply (uniq_NoDupA Qeq), Qeq_bool_spec. }
  assert (NE : NoDupA eq (OldDraft.sortedExpirations g)).
  { unfold OldDraft.sortedExpirations. apply sortBy_NoDupA; [exact _|].
    rewrite Kg. apply (uniq_NoDupA eq), string_eqb_spec. }
  split; [unfold OldDraft.processOptionsData; rewrite Eg; now destruct raw|].
  split.
  { apply (sorted_nodup_strict Qeq Qle); auto using Qle_neq_lt.
    apply sortBy_sorted; auto using strikeCmp_before, strikeCmp_after. }
  split.
  { intros s. unfold d, OldDraft.buildOptionsData. simpl.
    rewrite sortBy_InA, (uniq_InA Qeq Qeq_bool Qeq_bool_spec), InA_alt.
    split.
    - intros (y & Hy & Hin). apply in_map_iff in Hin as (o & <- & Ho).
      exists o. split; [exact Ho|]. now symmetry.
    - intros (o & Ho & Hs). exists (OldDraft.strike_price o).
      split; [now symmetry|]. now apply in_map. }
  split.
  { apply (sorted_nodup_strict eq strLe); auto using strLe_neq_lt.
    apply sortBy_sorted; auto using defaultStringCmp_before, defaultStringCmp_after. }
  split.
  { intros e. unfold OldDraft.sortedExpirations.
    rewrite <- InA_eq_In, sortBy_InA, Kg,
            (uniq_InA eq String.eqb string_eqb_spec), InA_eq_In, in_map_iff.
    split.
    - intros (o & <- & Ho). apply filter_In in Ho as [Ho Hp].
      exists o. split; [exact Ho|]. split; [reflexivity|].
      apply isProtoKey_false. now apply negb_true_iff.
    - intros (o & Ho & <- & Hp). exists o. split; [reflexivity|].
      apply filter_In. split; [exact Ho|]. apply negb_true_iff, isProtoKey_false, Hp. }
  split; [reflexivity|].
  split; [apply length_map|].
  apply Forall_forall. intros row Hrow. unfold d, OldDraft.buildOptionsData in Hrow |- *.
  simpl in *. apply in_map_iff in Hrow as (s & <- & _). now rewrite !length_map.
Qed.

Lemma draft_shape_witness :
  exists g, OldDraft.grouped OldDraft.draftInput = Some g /\
  let d := OldDraft.buildOptionsData (fun s => s) OldDraft.draftInput g in
  OldDraft.strikes d = [100; 110; 120] /\
  OldDraft.sortedExpirations g = ["2024-06-21"%string] /\
  Sorted Qlt (OldDraft.strikes d) /\
  length (OldDraft.ivs d) = length (OldDraft.strikes d).
Proof.
  assert (F : Forall (fun o' => OldDraft.expiration_date o' <> "__proto__"%string)
                     OldDraft.draftInput).
  { repeat constructor; simpl; discriminate. }
  destruct (draft_shape (fun s => s) OldDraft.draftInput
              {| OldDraft.loading := false; OldDraft.error := ""; OldDraft.optionsData := None |}
              ltac:(discriminate) F)
    as (g & Eg & _ & Hs & _ & _ & _ & _ & Hl & _).
  exists g. split; [exact Eg|].
  vm_compute in Eg. injection Eg as <-.
  split; [reflexivity|]. split; [reflexivity|]. split; [exact Hs | exact Hl].
Defined.
